(** * The order controller of the cooking-bot assessment, embedded in Rocq

    The Go package [controller] keeps three slices of [*Order] (all orders,
    the pending queue, the completed orders) and one slice of [*Bot].  Orders
    and bots are shared through pointers: the same [*Order] sits in
    [oc.orders], in the pending queue or a bot's [Order] field, and is
    mutated through whichever alias the running function holds.  The
    embedding therefore keeps two stores, one for orders and one for bots,
    and every slice holds addresses into them.

    Every public method takes [oc.mu] for its critical sections; the model
    runs a public method as one step.  The goroutine started by
    [go oc.processOrder(bot)] is a separate activity: one iteration of its
    [for { select { ... } }] loop is one step, and the case the [select]
    takes is an input of that step, because Go picks among the ready cases
    of a [select] at random. *)

From Stdlib Require Import ZArith Lia.
From stdpp Require Import base numbers list strings.

#[local] Set Warnings "-clear-no-such-hyp".

(** ** Integers, time, addresses *)

(** [int64] arithmetic wraps around in two's complement. *)
Definition wrap64 (z : Z) : Z := ((z + 2 ^ 63) mod 2 ^ 64 - 2 ^ 63)%Z.

(** [atomic.AddInt64(&v, delta)] stores and returns the new value. *)
Definition atomic_AddInt64 (v delta : Z) : Z := wrap64 (v + delta)%Z.

(** A [time.Time] as nanoseconds; the zero value of the struct field is 0. *)
Definition Time := Z.
Bind Scope Z_scope with Time.

(** [10 * time.Second], in nanoseconds. *)
Definition duration : Z := (10 * 1000000000)%Z.

(** [time.Since(startTime)] read at instant [now]. *)
Definition time_Since (now startTime : Time) : Z := (now - startTime)%Z.

(** An address in the order store or in the bot store. *)
Definition ptr := nat.

(** ** The data model (type declarations of order.go) *)

Inductive OrderType := OrderTypeNormal | OrderTypeVIP.
Inductive OrderStatus :=
  OrderStatusPending | OrderStatusProcessing | OrderStatusComplete.
Inductive BotStatus := BotStatusIdle | BotStatusProcessing.

#[global] Instance OrderType_eq_dec : EqDecision OrderType.
Proof. solve_decision. Defined.
#[global] Instance OrderStatus_eq_dec : EqDecision OrderStatus.
Proof. solve_decision. Defined.
#[global] Instance BotStatus_eq_dec : EqDecision BotStatus.
Proof. solve_decision. Defined.

Module Order.
Record t := mk {
  ID : Z;
  Type_ : OrderType;
  Status : OrderStatus;
  BotID : Z;
  Created : Time;
  Started : Time;
  Completed : Time
}.

(** The zero value of the struct. *)
Definition zero : t := mk 0%Z OrderTypeNormal OrderStatusPending 0%Z 0%Z 0%Z 0%Z.

Definition set_Status (v : OrderStatus) (o : t) : t :=
  mk (ID o) (Type_ o) v (BotID o) (Created o) (Started o) (Completed o).
Definition set_BotID (v : Z) (o : t) : t :=
  mk (ID o) (Type_ o) (Status o) v (Created o) (Started o) (Completed o).
Definition set_Started (v : Time) (o : t) : t :=
  mk (ID o) (Type_ o) (Status o) (BotID o) (Created o) v (Completed o).
Definition set_Completed (v : Time) (o : t) : t :=
  mk (ID o) (Type_ o) (Status o) (BotID o) (Created o) (Started o) v.
End Order.

Module Bot.
(** [stopChan] is [make(chan bool, 1)]: the values buffered in it, at most
    one.  [Order] is [None] for the nil pointer.  The mutex [mu] has no
    content: a step of the model is a whole critical section. *)
Record t := mk {
  ID : Z;
  Status : BotStatus;
  Order : option ptr;
  stopChan : list bool
}.

Definition zero : t := mk 0%Z BotStatusIdle None [].

Definition set_Status (v : BotStatus) (b : t) : t :=
  mk (ID b) v (Order b) (stopChan b).
Definition set_Order (v : option ptr) (b : t) : t :=
  mk (ID b) (Status b) v (stopChan b).
Definition set_stopChan (v : list bool) (b : t) : t :=
  mk (ID b) (Status b) (Order b) v.
End Bot.

#[global] Instance Order_inhabited : Inhabited Order.t := populate Order.zero.
#[global] Instance Bot_inhabited : Inhabited Bot.t := populate Bot.zero.

(** A goroutine running [processOrder(bot)]: the bot it was started for, the
    [startTime] it read, and whether it has returned. *)
Module Routine.
Record t := mk { bot : ptr; startTime : Time; returned : bool }.
Definition set_returned (v : bool) (g : t) : t := mk (bot g) (startTime g) v.
End Routine.

(** What the controller passes to [logger.Log]: the format and its arguments.
    The logger adds the wall-clock stamp and keeps the lines in call order. *)
Inductive LogMsg :=
| MsgCreatedNormal (orderID : Z)
| MsgCreatedVIP (orderID : Z)
| MsgBotCreated (botID : Z)
| MsgDestroyedIdle (botID : Z)
| MsgDestroyedProcessing (botID orderID : Z)
| MsgPickedUp (botID : Z) (orderType : string) (orderID : Z)
| MsgCompleted (botID : Z) (orderType : string) (orderID : Z) (seconds : Z)
| MsgNowIdle (botID : Z).

(** The [OrderController] struct, followed by the two stores its pointers
    point into and by the goroutines it has started. *)
Record State := mkState {
  logger : list LogMsg;
  orders : list ptr;
  pendingOrders : list ptr;
  completedOrders : list ptr;
  bots : list ptr;
  nextOrderID : Z;
  nextBotID : Z;
  orderMem : list Order.t;
  botMem : list Bot.t;
  routines : list Routine.t
}.

Definition set_logger v (s : State) : State :=
  mkState v (orders s) (pendingOrders s) (completedOrders s) (bots s)
    (nextOrderID s) (nextBotID s) (orderMem s) (botMem s) (routines s).
Definition set_orders v (s : State) : State :=
  mkState (logger s) v (pendingOrders s) (completedOrders s) (bots s)
    (nextOrderID s) (nextBotID s) (orderMem s) (botMem s) (routines s).
Definition set_pendingOrders v (s : State) : State :=
  mkState (logger s) (orders s) v (completedOrders s) (bots s)
    (nextOrderID s) (nextBotID s) (orderMem s) (botMem s) (routines s).
Definition set_completedOrders v (s : State) : State :=
  mkState (logger s) (orders s) (pendingOrders s) v (bots s)
    (nextOrderID s) (nextBotID s) (orderMem s) (botMem s) (routines s).
Definition set_bots v (s : State) : State :=
  mkState (logger s) (orders s) (pendingOrders s) (completedOrders s) v
    (nextOrderID s) (nextBotID s) (orderMem s) (botMem s) (routines s).
Definition set_nextOrderID v (s : State) : State :=
  mkState (logger s) (orders s) (pendingOrders s) (completedOrders s) (bots s)
    v (nextBotID s) (orderMem s) (botMem s) (routines s).
Definition set_nextBotID v (s : State) : State :=
  mkState (logger s) (orders s) (pendingOrders s) (completedOrders s) (bots s)
    (nextOrderID s) v (orderMem s) (botMem s) (routines s).
Definition set_orderMem v (s : State) : State :=
  mkState (logger s) (orders s) (pendingOrders s) (completedOrders s) (bots s)
    (nextOrderID s) (nextBotID s) v (botMem s) (routines s).
Definition set_botMem v (s : State) : State :=
  mkState (logger s) (orders s) (pendingOrders s) (completedOrders s) (bots s)
    (nextOrderID s) (nextBotID s) (orderMem s) v (routines s).
Definition set_routines v (s : State) : State :=
  mkState (logger s) (orders s) (pendingOrders s) (completedOrders s) (bots s)
    (nextOrderID s) (nextBotID s) (orderMem s) (botMem s) v.

(** ** Memory access *)

(** [*p] for an order pointer and for a bot pointer. *)
Definition order_at (s : State) (p : ptr) : Order.t := orderMem s !!! p.
Definition bot_at (s : State) (p : ptr) : Bot.t := botMem s !!! p.

(** A write through a pointer. *)
Definition store_order (p : ptr) (o : Order.t) (s : State) : State :=
  set_orderMem (<[p := o]> (orderMem s)) s.
Definition store_bot (p : ptr) (b : Bot.t) (s : State) : State :=
  set_botMem (<[p := b]> (botMem s)) s.

(** [&Order{...}] and [&Bot{...}]: a fresh cell at the end of the store. *)
Definition new_order (o : Order.t) (s : State) : ptr * State :=
  (length (orderMem s), set_orderMem (orderMem s ++ [o]) s).
Definition new_bot (b : Bot.t) (s : State) : ptr * State :=
  (length (botMem s), set_botMem (botMem s ++ [b]) s).

(** [oc.logger.Log(...)]. *)
Definition Log (m : LogMsg) (s : State) : State :=
  set_logger (logger s ++ [m]) s.

(** [go oc.processOrder(bot)]; the goroutine reads [startTime] as it starts. *)
Definition go_processOrder (bot : ptr) (now : Time) (s : State) : State :=
  set_routines (routines s ++ [Routine.mk bot now false]) s.

(** ** The controller (order.go, the revision with the helper functions) *)

Definition NewOrderController : State :=
  mkState [] [] [] [] [] 1001%Z 1%Z [] [] [].

Definition getOrderTypeString (orderType : OrderType) : string :=
  if decide (orderType = OrderTypeVIP) then "VIP"%string else "Normal"%string.

(** The loop of [insertVIPOrder]: [i] is the index of the head of [q],
    [insertIndex] the value of the variable so far. *)
Fixpoint findInsertIndex (s : State) (q : list ptr) (i insertIndex : nat) : nat :=
  match q with
  | [] => insertIndex
  | pendingOrder :: q' =>
      findInsertIndex s q' (S i)
        (if decide (Order.Type_ (order_at s pendingOrder) = OrderTypeVIP)
         then i + 1 else insertIndex)
  end.

Definition insertVIPOrder (order : ptr) (s : State) : State :=
  let insertIndex := findInsertIndex s (pendingOrders s) 0 0 in
  let newPendingOrders :=
    (take insertIndex (pendingOrders s) ++ [order])
      ++ drop insertIndex (pendingOrders s) in
  set_pendingOrders newPendingOrders s.

Definition insertOrderToPending (order : ptr) (s : State) : State :=
  match Order.Type_ (order_at s order) with
  | OrderTypeVIP => insertVIPOrder order s
  | OrderTypeNormal => set_pendingOrders (pendingOrders s ++ [order]) s
  end.

(** One iteration of the loop of [assignOrdersToBots]. *)
Definition assign_bot (now : Time) (s : State) (bot : ptr) : State :=
  if decide (Bot.Status (bot_at s bot) = BotStatusIdle
             ∧ 0 < length (pendingOrders s)) then
    match pendingOrders s with
    | [] => s
    | order :: rest =>
        let s := set_pendingOrders rest s in
        let s := store_bot bot (Bot.set_Order (Some order) (bot_at s bot)) s in
        let s := store_bot bot
                   (Bot.set_Status BotStatusProcessing (bot_at s bot)) s in
        let s := store_order order
                   (Order.set_Status OrderStatusProcessing (order_at s order)) s in
        let s := store_order order
                   (Order.set_BotID (Bot.ID (bot_at s bot)) (order_at s order)) s in
        let s := store_order order
                   (Order.set_Started now (order_at s order)) s in
        let s := Log (MsgPickedUp (Bot.ID (bot_at s bot))
                        (getOrderTypeString (Order.Type_ (order_at s order)))
                        (Order.ID (order_at s order))) s in
        go_processOrder bot now s
    end
  else s.

Definition assignOrdersToBots (now : Time) (s : State) : State :=
  fold_left (assign_bot now) (bots s) s.

Definition CreateNormalOrder (now : Time) (s : State) : State :=
  let new := atomic_AddInt64 (nextOrderID s) 1%Z in
  let s := set_nextOrderID new s in
  let orderID := wrap64 (new - 1)%Z in
  let '(order, s) :=
    new_order (Order.mk orderID OrderTypeNormal OrderStatusPending 0%Z now 0%Z 0%Z) s in
  let s := set_orders (orders s ++ [order]) s in
  let s := set_pendingOrders (pendingOrders s ++ [order]) s in
  let s := Log (MsgCreatedNormal orderID) s in
  assignOrdersToBots now s.

Definition CreateVIPOrder (now : Time) (s : State) : State :=
  let new := atomic_AddInt64 (nextOrderID s) 1%Z in
  let s := set_nextOrderID new s in
  let orderID := wrap64 (new - 1)%Z in
  let '(order, s) :=
    new_order (Order.mk orderID OrderTypeVIP OrderStatusPending 0%Z now 0%Z 0%Z) s in
  let s := set_orders (orders s ++ [order]) s in
  let s := insertVIPOrder order s in
  let s := Log (MsgCreatedVIP orderID) s in
  assignOrdersToBots now s.

Definition AddBot (now : Time) (s : State) : State :=
  let new := atomic_AddInt64 (nextBotID s) 1%Z in
  let s := set_nextBotID new s in
  let botID := wrap64 (new - 1)%Z in
  let '(bot, s) := new_bot (Bot.mk botID BotStatusIdle None []) s in
  let s := set_bots (bots s ++ [bot]) s in
  let s := Log (MsgBotCreated botID) s in
  assignOrdersToBots now s.

(** [removeBotFromList]: the removed bot, or [None] for nil. *)
Definition removeBotFromList (s : State) : option ptr * State :=
  if decide (length (bots s) = 0) then (None, s)
  else
    let botIndex := length (bots s) - 1 in
    match bots s !! botIndex with
    | Some bot => (Some bot, set_bots (take botIndex (bots s)) s)
    | None => (None, s)
    end.

(** [ch <- v] on a channel of capacity [cap]: [None] when the buffer is full
    and the sender would block. *)
Definition chan_send (cap : nat) (v : bool) (ch : list bool) : option (list bool) :=
  if decide (length ch < cap) then Some (ch ++ [v]) else None.

(** [stopBotProcessing]: [(order, true)] is [Some order], [(nil, false)] is
    [None]; the outer [option] is [None] when the send blocks. *)
Definition stopBotProcessing (bot : ptr) (s : State)
  : option (option ptr * State) :=
  match Bot.Status (bot_at s bot), Bot.Order (bot_at s bot) with
  | BotStatusProcessing, Some order =>
      ch ← chan_send 1 true (Bot.stopChan (bot_at s bot));
      let s := store_bot bot (Bot.set_stopChan ch (bot_at s bot)) s in
      let s := store_order order
                 (Order.set_Status OrderStatusPending (order_at s order)) s in
      let s := store_order order (Order.set_BotID 0%Z (order_at s order)) s in
      Some (Some order, s)
  | _, _ => Some (None, s)
  end.

Definition handleIdleBotRemoval (now : Time) (bot : ptr) (s : State) : State :=
  let s := Log (MsgDestroyedIdle (Bot.ID (bot_at s bot))) s in
  assignOrdersToBots now s.

Definition handleProcessingBotRemoval (now : Time) (bot order : ptr) (s : State)
  : State :=
  let s := insertOrderToPending order s in
  let s := Log (MsgDestroyedProcessing (Bot.ID (bot_at s bot))
                  (Order.ID (order_at s order))) s in
  assignOrdersToBots now s.

Definition RemoveBot (now : Time) (s : State) : option State :=
  match removeBotFromList s with
  | (None, s) => Some s
  | (Some bot, s) =>
      '(r, s) ← stopBotProcessing bot s;
      match r with
      | None => Some (handleIdleBotRemoval now bot s)
      | Some order => Some (handleProcessingBotRemoval now bot order s)
      end
  end.

(** [completeOrderProcessing]: the completed order, or [None] for nil. *)
Definition completeOrderProcessing (now : Time) (bot : ptr) (s : State)
  : option ptr * State :=
  match Bot.Order (bot_at s bot) with
  | None => (None, s)
  | Some order =>
      let s := store_order order
                 (Order.set_Status OrderStatusComplete (order_at s order)) s in
      let s := store_order order (Order.set_Completed now (order_at s order)) s in
      let s := store_bot bot (Bot.set_Order None (bot_at s bot)) s in
      let s := store_bot bot (Bot.set_Status BotStatusIdle (bot_at s bot)) s in
      (Some order, s)
  end.

(** [int(processingTime.Seconds())]: whole seconds, truncated. *)
Definition seconds (d : Z) : Z := Z.quot d 1000000000%Z.

Definition finalizeOrderCompletion (now : Time) (bot order : ptr) (s : State)
  : State :=
  let processingTime :=
    (Order.Completed (order_at s order) - Order.Started (order_at s order))%Z in
  let s := set_completedOrders (completedOrders s ++ [order]) s in
  let hasPendingOrders := bool_decide (0 < length (pendingOrders s)) in
  let s := Log (MsgCompleted (Bot.ID (bot_at s bot))
                  (getOrderTypeString (Order.Type_ (order_at s order)))
                  (Order.ID (order_at s order)) (seconds processingTime)) s in
  let s := assignOrdersToBots now s in
  if negb hasPendingOrders then Log (MsgNowIdle (Bot.ID (bot_at s bot))) s
  else s.

(** The two cases of the [select] in [processOrder]. *)
Inductive SelectCase := CaseStop | CaseTick.

Definition set_routine (g : nat) (r : Routine.t) (s : State) : State :=
  set_routines (<[g := r]> (routines s)) s.

(** One iteration of the loop of [processOrder] in goroutine [g], the
    [select] taking case [c] at instant [now].  [None]: the goroutine does
    not exist, has returned, or the case is not ready ([<-bot.stopChan] on an
    empty channel).  The ticker case is ready whenever the environment says
    a tick has arrived. *)
Definition processOrder (g : nat) (c : SelectCase) (now : Time) (s : State)
  : option State :=
  r ← routines s !! g;
  if Routine.returned r then None
  else
    let bot := Routine.bot r in
    match c with
    | CaseStop =>
        match Bot.stopChan (bot_at s bot) with
        | [] => None
        | _ :: ch =>
            let s := store_bot bot (Bot.set_stopChan ch (bot_at s bot)) s in
            Some (set_routine g (Routine.set_returned true r) s)
        end
    | CaseTick =>
        if decide (time_Since now (Routine.startTime r) >= duration)%Z then
          let s := set_routine g (Routine.set_returned true r) s in
          match completeOrderProcessing now bot s with
          | (None, s) => Some s
          | (Some order, s) => Some (finalizeOrderCompletion now bot order s)
          end
        else Some s
    end.

Definition Wait (now : Time) (s : State) : State := assignOrdersToBots now s.

(** ** Runs *)

(** What can happen next: a call of a public method by the driver, or one
    [select] of a goroutine. *)
Inductive event :=
| ECreateNormalOrder (now : Time)
| ECreateVIPOrder (now : Time)
| EAddBot (now : Time)
| ERemoveBot (now : Time)
| EWait (now : Time)
| ESelect (g : nat) (c : SelectCase) (now : Time).

Definition step (e : event) (s : State) : option State :=
  match e with
  | ECreateNormalOrder now => Some (CreateNormalOrder now s)
  | ECreateVIPOrder now => Some (CreateVIPOrder now s)
  | EAddBot now => Some (AddBot now s)
  | ERemoveBot now => RemoveBot now s
  | EWait now => Some (Wait now s)
  | ESelect g c now => processOrder g c now s
  end.

Fixpoint run (tr : list event) (s : State) : option State :=
  match tr with
  | [] => Some s
  | e :: tr' => s' ← step e s; run tr' s'
  end.


(** ** The revision of order.go with the bodies inlined

    The other revision of the file takes [oc.mu] to read and bump the
    counters (plain [int] fields), finds the insertion index and splices the
    queue inside [CreateVIPOrder] and [RemoveBot], and completes the order
    inside [processOrder].  [assignOrdersToBots], [Wait] and the types are
    the same text. *)
Module Inlined.

Definition CreateNormalOrder (now : Time) (s : State) : State :=
  let orderID := nextOrderID s in
  let s := set_nextOrderID (wrap64 (nextOrderID s + 1)%Z) s in
  let '(order, s) :=
    new_order (Order.mk orderID OrderTypeNormal OrderStatusPending 0%Z now 0%Z 0%Z) s in
  let s := set_orders (orders s ++ [order]) s in
  let s := set_pendingOrders (pendingOrders s ++ [order]) s in
  let s := Log (MsgCreatedNormal orderID) s in
  assignOrdersToBots now s.

(** [append(q[:insertIndex], append([]*Order{order}, q[insertIndex:]...)...)],
    or a plain append when the index is at the end. *)
Definition splice (order : ptr) (s : State) : State :=
  let insertIndex := findInsertIndex s (pendingOrders s) 0 0 in
  if decide (length (pendingOrders s) ≤ insertIndex) then
    set_pendingOrders (pendingOrders s ++ [order]) s
  else
    set_pendingOrders
      (take insertIndex (pendingOrders s)
         ++ ([order] ++ drop insertIndex (pendingOrders s))) s.

Definition CreateVIPOrder (now : Time) (s : State) : State :=
  let orderID := nextOrderID s in
  let s := set_nextOrderID (wrap64 (nextOrderID s + 1)%Z) s in
  let '(order, s) :=
    new_order (Order.mk orderID OrderTypeVIP OrderStatusPending 0%Z now 0%Z 0%Z) s in
  let s := set_orders (orders s ++ [order]) s in
  let s := splice order s in
  let s := Log (MsgCreatedVIP orderID) s in
  assignOrdersToBots now s.

Definition AddBot (now : Time) (s : State) : State :=
  let botID := nextBotID s in
  let s := set_nextBotID (wrap64 (nextBotID s + 1)%Z) s in
  let '(bot, s) := new_bot (Bot.mk botID BotStatusIdle None []) s in
  let s := set_bots (bots s ++ [bot]) s in
  let s := Log (MsgBotCreated botID) s in
  assignOrdersToBots now s.

Definition RemoveBot (now : Time) (s : State) : option State :=
  if decide (length (bots s) = 0) then Some s
  else
    let botIndex := length (bots s) - 1 in
    match bots s !! botIndex with
    | None => Some s
    | Some bot =>
        let s := set_bots (take botIndex (bots s)) s in
        s ← match Bot.Status (bot_at s bot), Bot.Order (bot_at s bot) with
            | BotStatusProcessing, Some order =>
                ch ← chan_send 1 true (Bot.stopChan (bot_at s bot));
                let s := store_bot bot (Bot.set_stopChan ch (bot_at s bot)) s in
                let s := store_order order
                           (Order.set_Status OrderStatusPending
                              (order_at s order)) s in
                let s := store_order order
                           (Order.set_BotID 0%Z (order_at s order)) s in
                let s :=
                  if decide (Order.Type_ (order_at s order) = OrderTypeVIP)
                  then splice order s
                  else set_pendingOrders (pendingOrders s ++ [order]) s in
                Some (Log (MsgDestroyedProcessing (Bot.ID (bot_at s bot))
                             (Order.ID (order_at s order))) s)
            | _, _ => Some (Log (MsgDestroyedIdle (Bot.ID (bot_at s bot))) s)
            end;
        Some (assignOrdersToBots now s)
    end.

Definition processOrder (g : nat) (c : SelectCase) (now : Time) (s : State)
  : option State :=
  r ← routines s !! g;
  if Routine.returned r then None
  else
    let bot := Routine.bot r in
    match c with
    | CaseStop =>
        match Bot.stopChan (bot_at s bot) with
        | [] => None
        | _ :: ch =>
            let s := store_bot bot (Bot.set_stopChan ch (bot_at s bot)) s in
            Some (set_routine g (Routine.set_returned true r) s)
        end
    | CaseTick =>
        if decide (time_Since now (Routine.startTime r) >= duration)%Z then
          let s := set_routine g (Routine.set_returned true r) s in
          let s :=
            match Bot.Order (bot_at s bot) with
            | Some order =>
                let s := store_order order
                           (Order.set_Status OrderStatusComplete
                              (order_at s order)) s in
                let s := store_order order
                           (Order.set_Completed now (order_at s order)) s in
                let processingTime :=
                  (Order.Completed (order_at s order)
                   - Order.Started (order_at s order))%Z in
                let s := set_completedOrders (completedOrders s ++ [order]) s in
                let s := Log (MsgCompleted (Bot.ID (bot_at s bot))
                                (getOrderTypeString
                                   (Order.Type_ (order_at s order)))
                                (Order.ID (order_at s order))
                                (seconds processingTime)) s in
                let s := store_bot bot (Bot.set_Order None (bot_at s bot)) s in
                store_bot bot (Bot.set_Status BotStatusIdle (bot_at s bot)) s
            | None => s
            end in
          let hasPendingOrders := bool_decide (0 < length (pendingOrders s)) in
          let s := assignOrdersToBots now s in
          if negb hasPendingOrders then
            if decide (Bot.Status (bot_at s bot) = BotStatusIdle)
            then Some (Log (MsgNowIdle (Bot.ID (bot_at s bot))) s)
            else Some s
          else Some s
        else Some s
    end.

End Inlined.

(** ** Vocabulary of the statements *)

(** What one firing iteration of the assignment loop leaves behind: [bot]
    holds [order], [rest] is the queue. *)
Definition picked (now : Time) (bot order : ptr) (rest : list ptr) (s : State)
  : State :=
  let b := bot_at s bot in
  let o := order_at s order in
  mkState
    (logger s ++ [MsgPickedUp (Bot.ID b)
                    (getOrderTypeString (Order.Type_ o)) (Order.ID o)])
    (orders s) rest (completedOrders s) (bots s) (nextOrderID s) (nextBotID s)
    (<[order := Order.mk (Order.ID o) (Order.Type_ o) OrderStatusProcessing
                 (Bot.ID b) (Order.Created o) now (Order.Completed o)]>
       (orderMem s))
    (<[bot := Bot.mk (Bot.ID b) BotStatusProcessing (Some order)
               (Bot.stopChan b)]> (botMem s))
    (routines s ++ [Routine.mk bot now false]).

(** The loop of [assignOrdersToBots] over the bots still to visit. *)
Definition assign_loop (now : Time) (bs : list ptr) (s : State) : State :=
  fold_left (assign_bot now) bs s.

Definition is_idle (s : State) (bot : ptr) : Prop :=
  Bot.Status (bot_at s bot) = BotStatusIdle.

#[global] Instance is_idle_dec s bot : Decision (is_idle s bot).
Proof. unfold is_idle. apply _. Defined.

(** The idle bots of the pool, in pool order. *)
Definition idle_bots (s : State) : list ptr := filter (is_idle s) (bots s).

(** The class of the order behind a pointer, and the sub-queue of a class. *)
Definition order_type (s : State) (p : ptr) : OrderType :=
  Order.Type_ (order_at s p).

Definition is_class (c : OrderType) (s : State) (p : ptr) : Prop :=
  order_type s p = c.

#[global] Instance is_class_dec c s p : Decision (is_class c s p).
Proof. unfold is_class. apply _. Defined.

Definition class_view (c : OrderType) (s : State) (q : list ptr) : list ptr :=
  filter (is_class c s) q.

(** A queue split into VIP orders followed by Normal orders. *)
Definition partitioned (s : State) (q : list ptr) : Prop :=
  ∃ vips normals, q = vips ++ normals
    ∧ Forall (is_class OrderTypeVIP s) vips
    ∧ Forall (is_class OrderTypeNormal s) normals.

(** The order a pool bot holds, if any. *)
Definition slot (s : State) (bot : ptr) : option ptr := Bot.Order (bot_at s bot).

(** The orders held by the bots of the pool, in pool order. *)
Definition in_flight (s : State) : list ptr := omap (slot s) (bots s).

(** No idle bot of the pool is left beside a non-empty queue. *)
Definition saturated (s : State) : Prop :=
  pendingOrders s = [] ∨ ∀ bot, bot ∈ bots s → ¬ is_idle s bot.

Definition int64 (z : Z) : Prop := (- 2 ^ 63 ≤ z < 2 ^ 63)%Z.

(** The shape every state of a run has. *)
Record wf (s : State) : Prop := mk_wf {
  wf_pending : Forall (λ p, p < length (orderMem s)) (pendingOrders s);
  wf_bots : Forall (λ b, b < length (botMem s)) (bots s);
  wf_slot : ∀ b o, slot s b = Some o → o < length (orderMem s);
  wf_pool : NoDup (bots s);
  wf_chan : ∀ b, b ∈ bots s → Bot.stopChan (bot_at s b) = [];
  wf_idle : ∀ b, is_idle s b ↔ slot s b = None;
  wf_owned : NoDup (pendingOrders s ++ in_flight s);
  wf_partitioned : partitioned s (pendingOrders s);
  wf_orderID : int64 (nextOrderID s);
  wf_botID : int64 (nextBotID s)
}.

(** The immutable part of the stores: [s'] has every cell of [s], with the
    same order id, class and creation time and the same bot id. *)
Record extends (s s' : State) : Prop := mk_extends {
  ext_orders : length (orderMem s) ≤ length (orderMem s');
  ext_bots : length (botMem s) ≤ length (botMem s');
  ext_order : ∀ p, p < length (orderMem s) →
    Order.ID (order_at s' p) = Order.ID (order_at s p)
    ∧ Order.Type_ (order_at s' p) = Order.Type_ (order_at s p)
    ∧ Order.Created (order_at s' p) = Order.Created (order_at s p);
  ext_bot : ∀ b, b < length (botMem s) →
    Bot.ID (bot_at s' b) = Bot.ID (bot_at s b)
}.

(** What an assignment pass may change: it pops a prefix of the queue and
    fills idle bots; the other collections, the counters and the busy bots
    stay as they are. *)
Record passes (s s' : State) : Prop := mk_passes {
  pass_orders : orders s' = orders s;
  pass_completed : completedOrders s' = completedOrders s;
  pass_bots : bots s' = bots s;
  pass_nextOrderID : nextOrderID s' = nextOrderID s;
  pass_nextBotID : nextBotID s' = nextBotID s;
  pass_orderMem : length (orderMem s') = length (orderMem s);
  pass_botMem : length (botMem s') = length (botMem s);
  pass_pending : ∃ k, pendingOrders s' = drop k (pendingOrders s);
  pass_busy : ∀ b, ¬ is_idle s b → bot_at s' b = bot_at s b;
  pass_stopChan : ∀ b,
    Bot.stopChan (bot_at s' b) = Bot.stopChan (bot_at s b)
}.

(** What [stopBotProcessing] leaves behind for a processing bot: the stop
    signal is buffered and the order is Pending again, without a bot. *)
Definition stopped (bot order : ptr) (s : State) : State :=
  let b := bot_at s bot in
  let o := order_at s order in
  set_orderMem
    (<[order := Order.mk (Order.ID o) (Order.Type_ o) OrderStatusPending 0%Z
                 (Order.Created o) (Order.Started o) (Order.Completed o)]>
       (orderMem s))
    (set_botMem
       (<[bot := Bot.mk (Bot.ID b) (Bot.Status b) (Bot.Order b)
                  (Bot.stopChan b ++ [true])]> (botMem s)) s).

(** What [completeOrderProcessing] leaves behind for a bot holding [order]. *)
Definition completed (now : Time) (bot order : ptr) (s : State) : State :=
  let b := bot_at s bot in
  let o := order_at s order in
  set_botMem
    (<[bot := Bot.mk (Bot.ID b) BotStatusIdle None (Bot.stopChan b)]> (botMem s))
    (set_orderMem
       (<[order := Order.mk (Order.ID o) (Order.Type_ o) OrderStatusComplete
                    (Order.BotID o) (Order.Created o) (Order.Started o) now]>
          (orderMem s)) s).

(** The state in which [CreateNormalOrder] and [CreateVIPOrder] have built
    the order and appended it to [oc.orders]. *)
Definition alloc_order (ty : OrderType) (now : Time) (s : State) : State :=
  let new := atomic_AddInt64 (nextOrderID s) 1%Z in
  set_orders (orders s ++ [length (orderMem s)])
    (set_orderMem
       (orderMem s ++ [Order.mk (wrap64 (new - 1)%Z) ty OrderStatusPending
                         0%Z now 0%Z 0%Z])
       (set_nextOrderID new s)).

Definition MsgCreated (ty : OrderType) (orderID : Z) : LogMsg :=
  match ty with
  | OrderTypeNormal => MsgCreatedNormal orderID
  | OrderTypeVIP => MsgCreatedVIP orderID
  end.

(** The state in which a create-call reaches its closing
    [oc.assignOrdersToBots()]. *)
Definition queued_new (ty : OrderType) (now : Time) (s : State) : State :=
  Log (MsgCreated ty (wrap64 (atomic_AddInt64 (nextOrderID s) 1%Z - 1)%Z))
    (insertOrderToPending (length (orderMem s)) (alloc_order ty now s)).

(** The state in which [AddBot] reaches its closing pass. *)
Definition pooled_new (s : State) : State :=
  let new := atomic_AddInt64 (nextBotID s) 1%Z in
  Log (MsgBotCreated (wrap64 (new - 1)%Z))
    (set_bots (bots s ++ [length (botMem s)])
       (set_botMem
          (botMem s ++ [Bot.mk (wrap64 (new - 1)%Z) BotStatusIdle None []])
          (set_nextBotID new s))).

(** The state in which [handleProcessingBotRemoval] reaches its closing
    pass, [s] being the state [stopBotProcessing] returned. *)
Definition requeued (bot order : ptr) (s : State) : State :=
  Log (MsgDestroyedProcessing (Bot.ID (bot_at s bot)) (Order.ID (order_at s order)))
    (insertOrderToPending order s).

(** The invariant of the runs. *)
Definition inv (s : State) : Prop := wf s ∧ saturated s.

(** The state in which [finalizeOrderCompletion] reaches its assignment
    pass, [s] being the state [completeOrderProcessing] returned. *)
Definition reported (bot order : ptr) (s : State) : State :=
  Log (MsgCompleted (Bot.ID (bot_at s bot))
         (getOrderTypeString (Order.Type_ (order_at s order)))
         (Order.ID (order_at s order))
         (seconds (Order.Completed (order_at s order)
                   - Order.Started (order_at s order))%Z))
    (set_completedOrders (completedOrders s ++ [order]) s).

(** Goroutine [g] has returned. *)
Definition retire (g : nat) (r : Routine.t) (s : State) : State :=
  set_routine g (Routine.set_returned true r) s.

(** The orders an event puts into the pending queue: the new order of a
    create-call, the order [RemoveBot] takes back from a processing bot. *)
Definition inserted (e : event) (s : State) : list ptr :=
  match e with
  | ECreateNormalOrder _ | ECreateVIPOrder _ => [length (orderMem s)]
  | ERemoveBot _ =>
      match removeBotFromList s with
      | (Some bot, s1) =>
          match stopBotProcessing bot s1 with
          | Some (Some order, _) => [order]
          | _ => []
          end
      | (None, _) => []
      end
  | _ => []
  end.

(** The insertions of a run, oldest first. *)
Fixpoint history (tr : list event) (s : State) : list ptr :=
  match tr with
  | [] => []
  | e :: tr' =>
      inserted e s ++ match step e s with
                      | Some s' => history tr' s'
                      | None => []
                      end
  end.

(** Each class of the queue is what is left of the insertions of that class
    once the oldest ones are gone. *)
Definition fifo (s : State) (h : list ptr) : Prop :=
  Forall (λ p, p < length (orderMem s)) h
  ∧ ∀ c, class_view c s (pendingOrders s) `suffix_of` class_view c s h.

(** [q] with [o] put in at index [i]. *)
Definition insert_at (i : nat) (o : ptr) (q : list ptr) : list ptr :=
  take i q ++ o :: drop i q.

(** The index at which an order of class [c] enters the queue [q]: behind the
    last VIP order for a VIP order, at the end for a Normal one. *)
Definition insertIndex (s : State) (c : OrderType) (q : list ptr) : nat :=
  match c with
  | OrderTypeVIP => findInsertIndex s q 0 0
  | OrderTypeNormal => length q
  end.

(** Scenario E of the specification: Normal, Normal, VIP, Normal. *)
Definition scenario_E : list event :=
  [ECreateNormalOrder 0; ECreateNormalOrder 1; ECreateVIPOrder 2;
   ECreateNormalOrder 3].

(** The id and class of the orders of a queue. *)
Definition queue_view (s : State) (q : list ptr) : list (Z * OrderType) :=
  map (λ p, (Order.ID (order_at s p), Order.Type_ (order_at s p))) q.

(** The goroutine an assignment starts, and the line it logs. *)
Definition started (now : Time) (bot : ptr) : Routine.t :=
  Routine.mk bot now false.

Definition picked_msg (s : State) (bot order : ptr) : LogMsg :=
  MsgPickedUp (Bot.ID (bot_at s bot))
    (getOrderTypeString (Order.Type_ (order_at s order)))
    (Order.ID (order_at s order)).

(** How many orders a pass hands out. *)
Definition assigned (s : State) : nat :=
  min (length (idle_bots s)) (length (pendingOrders s)).

(** What a pass needs of the state it starts from: the queue and the pool
    hold addresses of existing cells, each at most once. *)
Definition pass_ready (s : State) : Prop :=
  Forall (λ p, p < length (orderMem s)) (pendingOrders s)
  ∧ NoDup (pendingOrders s)
  ∧ Forall (λ b, b < length (botMem s)) (bots s)
  ∧ NoDup (bots s).

#[global] Instance pass_ready_dec s : Decision (pass_ready s).
Proof. unfold pass_ready. apply _. Defined.

(** A kitchen in the middle of [CreateNormalOrder], about to run its pass:
    bot 1 cooks order 1001, bots 2 and 3 are idle, and the queue holds the
    VIP order 1002 and the Normal orders 1003 and 1004. *)
Definition sample_kitchen : State :=
  Eval vm_compute in
    queued_new OrderTypeNormal 6
      (queued_new OrderTypeNormal 5
         (queued_new OrderTypeVIP 4
            (pooled_new
               (pooled_new
                  (assignOrdersToBots 1
                     (queued_new OrderTypeNormal 1
                        (pooled_new NewOrderController))))))).

(** The state a step leaves, by the kind of step and, for [RemoveBot] and
    the goroutine, by what it finds: every method cut at its closing pass. *)
Inductive shape (s : State) : event → State → Prop :=
| shape_create_normal now :
    shape s (ECreateNormalOrder now)
      (assignOrdersToBots now (queued_new OrderTypeNormal now s))
| shape_create_vip now :
    shape s (ECreateVIPOrder now)
      (assignOrdersToBots now (queued_new OrderTypeVIP now s))
| shape_add now :
    shape s (EAddBot now) (assignOrdersToBots now (pooled_new s))
| shape_remove_empty now :
    bots s = [] → shape s (ERemoveBot now) s
| shape_remove_idle now bs bot :
    bots s = bs ++ [bot] → slot s bot = None →
    shape s (ERemoveBot now)
      (assignOrdersToBots now
         (Log (MsgDestroyedIdle (Bot.ID (bot_at s bot))) (set_bots bs s)))
| shape_remove_processing now bs bot order :
    bots s = bs ++ [bot] →
    Bot.Status (bot_at s bot) = BotStatusProcessing →
    slot s bot = Some order →
    shape s (ERemoveBot now)
      (assignOrdersToBots now
         (requeued bot order (stopped bot order (set_bots bs s))))
| shape_wait now :
    shape s (EWait now) (assignOrdersToBots now s)
| shape_stop g now r v ch :
    routines s !! g = Some r → Routine.returned r = false →
    Bot.stopChan (bot_at s (Routine.bot r)) = v :: ch →
    shape s (ESelect g CaseStop now)
      (retire g r (store_bot (Routine.bot r)
                     (Bot.set_stopChan ch (bot_at s (Routine.bot r))) s))
| shape_early g now r :
    routines s !! g = Some r → Routine.returned r = false →
    ¬ (time_Since now (Routine.startTime r) >= duration)%Z →
    shape s (ESelect g CaseTick now) s
| shape_nil g now r :
    routines s !! g = Some r → Routine.returned r = false →
    (time_Since now (Routine.startTime r) >= duration)%Z →
    slot s (Routine.bot r) = None →
    shape s (ESelect g CaseTick now) (retire g r s)
| shape_complete g now r order :
    routines s !! g = Some r → Routine.returned r = false →
    (time_Since now (Routine.startTime r) >= duration)%Z →
    slot s (Routine.bot r) = Some order →
    shape s (ESelect g CaseTick now)
      (finalizeOrderCompletion now (Routine.bot r) order
         (completed now (Routine.bot r) order (retire g r s))).

(** The books of the controller: [oc.orders] lists every order cell in the
    order of creation, the counters are the base value plus the number of
    cells, each cell carries the id the counter had, and the pool lists its
    bots in the order of creation. *)
Record ledger (s : State) : Prop := mk_ledger {
  led_orders : orders s = seq 0 (length (orderMem s));
  led_nextOrderID :
    nextOrderID s = wrap64 (1001 + Z.of_nat (length (orderMem s)));
  led_orderID : ∀ p, p < length (orderMem s) →
    Order.ID (order_at s p) = wrap64 (1001 + Z.of_nat p);
  led_nextBotID : nextBotID s = wrap64 (1 + Z.of_nat (length (botMem s)));
  led_botID : ∀ b, b < length (botMem s) →
    Bot.ID (bot_at s b) = wrap64 (1 + Z.of_nat b);
  led_pool : ∀ i j b b', i < j →
    bots s !! i = Some b → bots s !! j = Some b' → b < b'
}.

(** A change that allocates nothing and adds no bot to the pool. *)
Record same_books (s s' : State) : Prop := mk_same_books {
  sb_orders : orders s' = orders s;
  sb_nextOrderID : nextOrderID s' = nextOrderID s;
  sb_nextBotID : nextBotID s' = nextBotID s;
  sb_orderMem : length (orderMem s') = length (orderMem s);
  sb_botMem : length (botMem s') = length (botMem s);
  sb_bots : bots s' `prefix_of` bots s
}.

(** No stop channel holds more than its one slot. *)
Definition chan_ok (s : State) : Prop :=
  ∀ b, length (Bot.stopChan (bot_at s b)) ≤ 1.



(** ** The final report

    [PrintStatus] only reads the controller and logs six lines; the model
    gives the lines it passes to [oc.logger.Log], in call order. *)
Inductive StatusLine :=
| LineBlank
| LineFinalStatus
| LineTotal (total vipCount normalCount : nat)
| LineCompleted (n : nat)
| LineActiveBots (n : nat)
| LinePending (n : nat).

(** The body of the counting loop, the [switch] of the revision with the
    helper functions: the pair is [(vipCount, normalCount)]. *)
Definition count_order (s : State) (c : nat * nat) (order : ptr) : nat * nat :=
  match Order.Type_ (order_at s order) with
  | OrderTypeVIP => (c.1 + 1, c.2)
  | OrderTypeNormal => (c.1, c.2 + 1)
  end.

Definition PrintStatus (s : State) : list StatusLine :=
  let c := fold_left (count_order s) (completedOrders s) (0, 0) in
  [LineBlank; LineFinalStatus;
   LineTotal (length (completedOrders s)) c.1 c.2;
   LineCompleted (length (completedOrders s));
   LineActiveBots (length (bots s));
   LinePending (length (pendingOrders s))].

(** The same loop in the revision with the inlined bodies: an [if] with an
    [else]. *)
Definition count_order_inlined (s : State) (c : nat * nat) (order : ptr)
  : nat * nat :=
  if OrderType_eq_dec (Order.Type_ (order_at s order)) OrderTypeVIP
  then (c.1 + 1, c.2) else (c.1, c.2 + 1).

Definition PrintStatus_inlined (s : State) : list StatusLine :=
  let c := fold_left (count_order_inlined s) (completedOrders s) (0, 0) in
  [LineBlank; LineFinalStatus;
   LineTotal (length (completedOrders s)) c.1 c.2;
   LineCompleted (length (completedOrders s));
   LineActiveBots (length (bots s));
   LinePending (length (pendingOrders s))].

(** The records of the controller only grow: the log, [oc.orders] and the
    completed orders of [s] open those of [s'], and no goroutine entry is
    lost. *)
Record grows (s s' : State) : Prop := mk_grows {
  grow_logger : logger s `prefix_of` logger s';
  grow_orders : orders s `prefix_of` orders s';
  grow_completed : completedOrders s `prefix_of` completedOrders s';
  grow_routines : length (routines s) ≤ length (routines s')
}.

(** * Properties *)

(** ** Memory *)

Lemma total_insert_same {A} `{!Inhabited A} (l : list A) (i : nat) (x : A) :
  i < length l → <[i := x]> l !!! i = x.
Proof. apply list_lookup_total_insert_eq. Qed.

Lemma total_insert_oob {A} `{!Inhabited A} (l : list A) (i : nat) (x : A) :
  length l ≤ i → <[i := x]> l = l.
Proof. apply list_insert_ge. Qed.

(** A write at [a] read back at [b]: the two cases of the address test. *)
Ltac case_ptr :=
  match goal with
  | |- context [decide (?a = ?b ∧ ?c)] =>
      destruct (decide (a = b ∧ c)) as [[<- ?] | ?]
  end.

(** ** One iteration of the assignment loop *)

Lemma assign_bot_skip now s bot :
  ¬ (is_idle s bot ∧ 0 < length (pendingOrders s)) → assign_bot now s bot = s.
Proof. unfold assign_bot, is_idle. intros H. by rewrite decide_False. Qed.

Lemma assign_bot_pick now s bot order rest :
  is_idle s bot → pendingOrders s = order :: rest →
  assign_bot now s bot = picked now bot order rest s.
Proof.
  unfold assign_bot, is_idle. intros Hidle Hq.
  rewrite decide_True by (rewrite Hq; simpl; split; [done | lia]).
  rewrite Hq. unfold picked, go_processOrder, Log, store_order, store_bot,
    order_at, bot_at. simpl.
  destruct (decide (bot < length (botMem s))) as [Hb | Hb];
    destruct (decide (order < length (orderMem s))) as [Ho | Ho].
  - rewrite !list_lookup_total_insert_eq
      by (rewrite ?length_insert; done).
    rewrite !list_insert_insert_eq. done.
  - rewrite !list_lookup_total_insert_eq by (rewrite ?length_insert; done).
    rewrite !list_insert_insert_eq.
    rewrite !(list_insert_ge (orderMem s)) by lia. done.
  - rewrite !(list_insert_ge (botMem s)) by lia.
    rewrite !list_lookup_total_insert_eq by (rewrite ?length_insert; done).
    rewrite !list_insert_insert_eq. done.
  - rewrite !(list_insert_ge (botMem s)) by lia.
    rewrite !(list_insert_ge (orderMem s)) by lia. done.
Qed.

Lemma bot_at_picked now bot order rest s b :
  bot_at (picked now bot order rest s) b =
    if decide (bot = b ∧ bot < length (botMem s))
    then Bot.mk (Bot.ID (bot_at s bot)) BotStatusProcessing (Some order)
           (Bot.stopChan (bot_at s bot))
    else bot_at s b.
Proof. unfold bot_at, picked. simpl. apply list_lookup_total_insert. Qed.

Lemma order_at_picked now bot order rest s p :
  order_at (picked now bot order rest s) p =
    if decide (order = p ∧ order < length (orderMem s))
    then Order.mk (Order.ID (order_at s order)) (Order.Type_ (order_at s order))
           OrderStatusProcessing (Bot.ID (bot_at s bot))
           (Order.Created (order_at s order)) now
           (Order.Completed (order_at s order))
    else order_at s p.
Proof. unfold order_at, picked. simpl. apply list_lookup_total_insert. Qed.

Lemma order_type_picked now bot order rest s p :
  order_type (picked now bot order rest s) p = order_type s p.
Proof.
  unfold order_type. rewrite order_at_picked.
  case_ptr; done.
Qed.

Lemma slot_picked now bot order rest s b :
  bot < length (botMem s) →
  slot (picked now bot order rest s) b =
    if decide (bot = b) then Some order else slot s b.
Proof.
  intros Hb. unfold slot. rewrite bot_at_picked.
  repeat case_decide; naive_solver.
Qed.

Lemma is_idle_picked now bot order rest s b :
  bot < length (botMem s) →
  is_idle (picked now bot order rest s) b ↔ bot ≠ b ∧ is_idle s b.
Proof.
  intros Hb. unfold is_idle. rewrite bot_at_picked.
  case_decide; naive_solver.
Qed.

Lemma stopChan_picked now bot order rest s b :
  Bot.stopChan (bot_at (picked now bot order rest s) b)
  = Bot.stopChan (bot_at s b).
Proof.
  rewrite bot_at_picked. case_ptr; done.
Qed.

Lemma partitioned_types s s' q :
  (∀ p, order_type s' p = order_type s p) →
  partitioned s q → partitioned s' q.
Proof.
  intros Hty (vs & ns & -> & Hv & Hn). exists vs, ns. split; [done|].
  split; eapply Forall_impl; eauto; unfold is_class; intros p Hp;
    by rewrite Hty.
Qed.

Lemma partitioned_tail s x q : partitioned s (x :: q) → partitioned s q.
Proof.
  intros (vs & ns & Heq & Hv & Hn). destruct vs as [|v vs]; simpl in Heq.
  - destruct ns as [|n ns]; [done|]. injection Heq as -> ->.
    exists [], ns. split; [done|]. split; [constructor|].
    by apply Forall_cons_1 in Hn as [_ ?].
  - injection Heq as -> ->. exists vs, ns. split; [done|].
    apply Forall_cons_1 in Hv as [_ ?]. done.
Qed.

Lemma omap_ext_in {A B} (f g : A → option B) (l : list A) :
  (∀ x, x ∈ l → f x = g x) → omap f l = omap g l.
Proof.
  induction l as [|x l IH]; intros H; [done|]. csimpl.
  rewrite (H x) by (apply elem_of_cons; by left).
  rewrite IH; [done|]. intros y Hy. apply H. apply elem_of_cons. by right.
Qed.

(** Moving the order [o] from the head of the queue into the empty slot of
    the pool bot [bot] keeps the owned orders distinct. *)
Lemma in_flight_fill s s' bot o :
  bots s' = bots s → bot ∈ bots s → NoDup (bots s) →
  slot s bot = None → slot s' bot = Some o →
  (∀ b, b ≠ bot → slot s' b = slot s b) →
  in_flight s' ≡ₚ o :: in_flight s.
Proof.
  unfold in_flight. intros -> Hin Hnd Hnone Hsome Hother.
  induction (bots s) as [|b bs IH]; [by apply elem_of_nil in Hin|].
  apply NoDup_cons in Hnd as [Hnotin Hnd].
  csimpl. destruct (decide (b = bot)) as [->|Hne].
  - rewrite Hsome, Hnone. csimpl. f_equiv.
    rewrite (omap_ext_in (slot s') (slot s)); [done|].
    intros x Hx. apply Hother. by intros ->.
  - apply elem_of_cons in Hin as [?|Hin]; [congruence|].
    rewrite (Hother b Hne). destruct (slot s b); csimpl.
    + rewrite IH by done. apply Permutation_swap.
    + by apply IH.
Qed.

Lemma extends_refl s : extends s s.
Proof. by constructor. Qed.

Lemma extends_trans s1 s2 s3 : extends s1 s2 → extends s2 s3 → extends s1 s3.
Proof.
  intros [H1 H2 H3 H4] [G1 G2 G3 G4]. constructor; [lia | lia | |].
  - intros p Hp. destruct (H3 p Hp) as (? & ? & ?).
    destruct (G3 p ltac:(lia)) as (? & ? & ?). repeat split; congruence.
  - intros b Hb. rewrite G4 by lia. by apply H4.
Qed.

Lemma extends_picked now bot order rest s :
  extends s (picked now bot order rest s).
Proof.
  constructor.
  - unfold picked; simpl. by rewrite length_insert.
  - unfold picked; simpl. by rewrite length_insert.
  - intros p _. rewrite order_at_picked.
    case_ptr; done.
  - intros b _. rewrite bot_at_picked.
    case_ptr; done.
Qed.

Lemma passes_refl s : passes s s.
Proof. constructor; try done. by exists 0. Qed.

Lemma passes_trans s1 s2 s3 : passes s1 s2 → passes s2 s3 → passes s1 s3.
Proof.
  intros [] []. constructor; try congruence.
  - destruct pass_pending0 as [k Hk], pass_pending1 as [k' Hk'].
    exists (k + k'). by rewrite Hk', Hk, drop_drop.
  - intros b Hb. rewrite pass_busy1; [by apply pass_busy0|].
    unfold is_idle in *. by rewrite pass_busy0.
Qed.

Lemma passes_picked now bot order rest s :
  is_idle s bot → pendingOrders s = order :: rest →
  passes s (picked now bot order rest s).
Proof.
  intros Hidle Hq. constructor; try done.
  - unfold picked; simpl. by rewrite length_insert.
  - unfold picked; simpl. by rewrite length_insert.
  - exists 1. by rewrite Hq.
  - intros b Hb. rewrite bot_at_picked.
    case_ptr; done.
  - intros b. apply stopChan_picked.
Qed.

Lemma wf_picked now bot order rest s :
  wf s → bot ∈ bots s → is_idle s bot → pendingOrders s = order :: rest →
  wf (picked now bot order rest s).
Proof.
  intros [Hp Hb Hs Hnd Hch Hid Hown Hpart Ho Hbi] Hin Hidle Hq.
  assert (Hbot : bot < length (botMem s)).
  { rewrite Forall_forall in Hb. by apply Hb. }
  rewrite Hq in Hp, Hown, Hpart.
  apply Forall_cons_1 in Hp as [Hord Hrest].
  constructor.
  - unfold picked; simpl. by rewrite length_insert.
  - unfold picked; simpl. by rewrite length_insert.
  - intros b o. rewrite slot_picked by done. unfold picked; simpl.
    rewrite length_insert. case_decide; [naive_solver | apply Hs].
  - done.
  - intros b Hbin. rewrite stopChan_picked. by apply Hch.
  - intros b. rewrite is_idle_picked, slot_picked by done.
    case_decide; [naive_solver|]. rewrite <- Hid. naive_solver.
  - change (NoDup (rest ++ in_flight (picked now bot order rest s))).
    rewrite (in_flight_fill s _ bot order); try done.
    + by rewrite <- Permutation_middle.
    + by apply Hid.
    + rewrite slot_picked by done. by rewrite decide_True.
    + intros b Hne. rewrite slot_picked by done. by rewrite decide_False.
  - change (partitioned (picked now bot order rest s) rest).
    apply (partitioned_types s); [apply order_type_picked|].
    by eapply partitioned_tail.
  - done.
  - done.
Qed.

(** ** The assignment pass *)

Lemma assign_bot_cases now s bot :
  (assign_bot now s bot = s
     ∧ ¬ (is_idle s bot ∧ 0 < length (pendingOrders s)))
  ∨ (∃ order rest, is_idle s bot ∧ pendingOrders s = order :: rest
       ∧ assign_bot now s bot = picked now bot order rest s).
Proof.
  destruct (decide (is_idle s bot ∧ 0 < length (pendingOrders s)))
    as [[Hidle Hlen] | Hno].
  - right. destruct (pendingOrders s) as [|order rest] eqn:Hq;
      [simpl in Hlen; lia|].
    exists order, rest. split; [done|]. split; [done|].
    by apply assign_bot_pick.
  - left. split; [by apply assign_bot_skip | done].
Qed.

Lemma assign_bot_passes now s bot : passes s (assign_bot now s bot).
Proof.
  destruct (assign_bot_cases now s bot)
    as [[-> _] | (order & rest & Hidle & Hq & ->)];
    [apply passes_refl | by apply passes_picked].
Qed.

Lemma assign_loop_cons now bot bs s :
  assign_loop now (bot :: bs) s = assign_loop now bs (assign_bot now s bot).
Proof. done. Qed.

Lemma assign_loop_passes now bs s : passes s (assign_loop now bs s).
Proof.
  revert s. induction bs as [|b bs IH]; intros s; [apply passes_refl|].
  rewrite assign_loop_cons.
  eapply passes_trans; [apply assign_bot_passes | apply IH].
Qed.

Lemma assign_loop_spec now bs s :
  wf s → (∀ b, b ∈ bs → b ∈ bots s) →
  let s' := assign_loop now bs s in
  wf s' ∧ passes s s' ∧ extends s s'
  ∧ (pendingOrders s' = [] ∨ ∀ b, b ∈ bs → ¬ is_idle s' b).
Proof.
  revert s. induction bs as [|bot bs IH]; intros s Hwf Hsub; simpl.
  - split; [done|]. split; [apply passes_refl|]. split; [apply extends_refl|].
    right. intros b Hb. by apply elem_of_nil in Hb.
  - assert (Hbot : bot ∈ bots s) by (apply Hsub, elem_of_cons; by left).
    assert (Hsub' : ∀ b, b ∈ bs → b ∈ bots s)
      by (intros b Hb; apply Hsub, elem_of_cons; by right).
    destruct (assign_bot_cases now s bot)
      as [[-> Hno] | (order & rest & Hidle & Hq & ->)].
    + destruct (IH s Hwf Hsub') as (Hwf' & Hpass & Hext & Hsat).
      split; [done|]. split; [done|]. split; [done|].
      destruct Hsat as [Hempty | Hbusy]; [by left|].
      destruct (decide (is_idle s bot)) as [Hidle | Hbusy0].
      * left. assert (pendingOrders s = []) as Hq.
        { destruct (pendingOrders s); [done|]. exfalso. apply Hno.
          split; [done|]. simpl. lia. }
        destruct Hpass. destruct pass_pending0 as [k Hk].
        rewrite Hk, Hq. by rewrite drop_nil.
      * right. intros b [->|Hb]%elem_of_cons; [|by apply Hbusy].
        unfold is_idle. destruct Hpass. by rewrite pass_busy0.
    + assert (Hwf1 := wf_picked now bot order rest s Hwf Hbot Hidle Hq).
      destruct (IH (picked now bot order rest s) Hwf1 Hsub')
        as (Hwf' & Hpass & Hext & Hsat).
      split; [done|].
      split; [eapply passes_trans; [by apply passes_picked | done]|].
      split; [eapply extends_trans; [apply extends_picked | done]|].
      destruct Hsat as [Hempty | Hbusy]; [by left|].
      right. intros b [->|Hb]%elem_of_cons; [|by apply Hbusy].
      unfold is_idle. destruct Hpass. rewrite pass_busy0.
      * rewrite bot_at_picked. rewrite decide_True; [done|].
        split; [done|]. destruct Hwf. rewrite Forall_forall in wf_bots0.
        by apply wf_bots0.
      * rewrite is_idle_picked; [naive_solver|].
        destruct Hwf. rewrite Forall_forall in wf_bots0. by apply wf_bots0.
Qed.

Lemma assignOrdersToBots_spec now s :
  wf s →
  let s' := assignOrdersToBots now s in
  wf s' ∧ passes s s' ∧ extends s s' ∧ saturated s'.
Proof.
  intros Hwf. destruct (assign_loop_spec now (bots s) s Hwf) as (H1 & H2 & H3 & H4);
    [done|].
  split; [done|]. split; [done|]. split; [done|].
  unfold saturated. destruct H4 as [?|H4]; [by left|]. right.
  intros b Hb. apply H4. destruct H2. by rewrite <- pass_bots0.
Qed.

(** ** Changes that keep the shape *)

Lemma partitioned_ext s s' q :
  (∀ p, p ∈ q → order_type s' p = order_type s p) →
  partitioned s q → partitioned s' q.
Proof.
  intros Hty (vs & ns & -> & Hv & Hn). exists vs, ns. split; [done|].
  rewrite !Forall_forall in *. unfold is_class in *.
  split; intros p Hp; rewrite Hty; auto; apply elem_of_app; auto.
Qed.

(** A change of the stores that leaves the queue, the pool, the slots and the
    classes of the existing orders as they are. *)
Lemma wf_update s s' :
  wf s →
  pendingOrders s' = pendingOrders s → bots s' = bots s →
  int64 (nextOrderID s') → int64 (nextBotID s') →
  length (orderMem s) ≤ length (orderMem s') →
  length (botMem s) ≤ length (botMem s') →
  (∀ p, p < length (orderMem s) → order_type s' p = order_type s p) →
  (∀ b, slot s' b = slot s b) →
  (∀ b, is_idle s' b ↔ is_idle s b) →
  (∀ b, b ∈ bots s → Bot.stopChan (bot_at s' b) = Bot.stopChan (bot_at s b)) →
  wf s'.
Proof.
  intros [Hp Hb Hs Hnd Hch Hid Hown Hpart Ho Hbi] Hq Hbs Ho' Hbi' Hlo Hlb
    Hty Hsl Hidle Hchan.
  constructor; rewrite ?Hq, ?Hbs; try done.
  - eapply Forall_impl; [exact Hp|]. simpl. lia.
  - eapply Forall_impl; [exact Hb|]. simpl. lia.
  - intros b o. rewrite Hsl. intros H. apply Hs in H. lia.
  - intros b Hin. rewrite Hchan by done. by apply Hch.
  - intros b. by rewrite Hidle, Hsl.
  - unfold in_flight. rewrite Hbs.
    rewrite (omap_ext_in (slot s') (slot s)); [done|]. intros; apply Hsl.
  - apply (partitioned_ext s); [|done].
    intros p Hin. apply Hty. rewrite Forall_forall in Hp. by apply Hp.
Qed.

Lemma wf_Log m s : wf s → wf (Log m s).
Proof.
  intros Hwf. apply (wf_update s); try done; by destruct Hwf.
Qed.

Lemma extends_Log m s : extends s (Log m s).
Proof. by constructor. Qed.

(** ** The insertion index *)

Lemma findInsertIndex_normals s ns i acc :
  Forall (is_class OrderTypeNormal s) ns → findInsertIndex s ns i acc = acc.
Proof.
  revert i acc. induction ns as [|n ns IH]; intros i acc H; [done|].
  apply Forall_cons_1 in H as [Hn Hns]. simpl.
  unfold is_class, order_type in Hn. rewrite Hn.
  rewrite decide_False by done. by apply IH.
Qed.

Lemma findInsertIndex_partitioned s vs ns i acc :
  Forall (is_class OrderTypeVIP s) vs →
  Forall (is_class OrderTypeNormal s) ns →
  findInsertIndex s (vs ++ ns) i acc
  = match vs with [] => acc | _ => i + length vs end.
Proof.
  revert i acc. induction vs as [|v vs IH]; intros i acc Hv Hn.
  - by apply findInsertIndex_normals.
  - apply Forall_cons_1 in Hv as [Hv Hvs]. simpl.
    unfold is_class, order_type in Hv. rewrite Hv.
    rewrite decide_True by done. rewrite IH by done.
    destruct vs; simpl; lia.
Qed.

Lemma insertVIPOrder_partitioned order s vs ns :
  pendingOrders s = vs ++ ns →
  Forall (is_class OrderTypeVIP s) vs →
  Forall (is_class OrderTypeNormal s) ns →
  pendingOrders (insertVIPOrder order s) = (vs ++ [order]) ++ ns.
Proof.
  intros Hq Hv Hn. unfold insertVIPOrder. simpl. rewrite Hq.
  rewrite findInsertIndex_partitioned by done.
  assert (match vs with [] => 0 | _ => 0 + length vs end = length vs) as ->
    by (by destruct vs).
  by rewrite take_app_length, drop_app_length.
Qed.

(** Where [insertOrderToPending] puts an order in a partitioned queue. *)
Lemma insertOrderToPending_partitioned order s vs ns :
  pendingOrders s = vs ++ ns →
  Forall (is_class OrderTypeVIP s) vs →
  Forall (is_class OrderTypeNormal s) ns →
  pendingOrders (insertOrderToPending order s)
  = match order_type s order with
    | OrderTypeVIP => (vs ++ [order]) ++ ns
    | OrderTypeNormal => (vs ++ ns) ++ [order]
    end.
Proof.
  intros Hq Hv Hn. unfold insertOrderToPending, order_type.
  destruct (Order.Type_ (order_at s order)).
  - simpl. by rewrite Hq.
  - by apply insertVIPOrder_partitioned.
Qed.

Lemma insertOrderToPending_frame order s :
  let s' := insertOrderToPending order s in
  logger s' = logger s ∧ orders s' = orders s
  ∧ completedOrders s' = completedOrders s ∧ bots s' = bots s
  ∧ nextOrderID s' = nextOrderID s ∧ nextBotID s' = nextBotID s
  ∧ orderMem s' = orderMem s ∧ botMem s' = botMem s
  ∧ routines s' = routines s.
Proof.
  unfold insertOrderToPending, insertVIPOrder.
  destruct (Order.Type_ (order_at s order)); simpl; done.
Qed.

Lemma wf_insertOrderToPending order s :
  wf s → order < length (orderMem s) →
  order ∉ pendingOrders s ++ in_flight s →
  wf (insertOrderToPending order s).
Proof.
  intros Hwf Hvalid Hfresh.
  destruct (insertOrderToPending_frame order s)
    as (_ & _ & _ & Hb & Ho & Hbi & Hom & Hbm & _).
  assert (Hty : ∀ p, order_type (insertOrderToPending order s) p = order_type s p)
    by (intros p; unfold order_type, order_at; by rewrite Hom).
  assert (Hsl : ∀ b, slot (insertOrderToPending order s) b = slot s b)
    by (intros b; unfold slot, bot_at; by rewrite Hbm).
  destruct Hwf as [Hp Hbs Hs Hnd Hch Hid Hown Hpart Hio Hibi].
  destruct Hpart as (vs & ns & Hq & Hv & Hn).
  assert (Hins := insertOrderToPending_partitioned order s vs ns Hq Hv Hn).
  assert (Hperm : pendingOrders (insertOrderToPending order s)
                  ≡ₚ order :: pendingOrders s).
  { rewrite Hins, Hq. destruct (order_type s order).
    - by rewrite <- Permutation_cons_append.
    - rewrite <- (assoc_L (++)). simpl. by rewrite <- Permutation_middle. }
  constructor.
  - rewrite Hom. eapply Forall_forall. intros p Hin.
    rewrite Hperm in Hin. apply elem_of_cons in Hin as [->|Hin]; [done|].
    rewrite Forall_forall in Hp. by apply Hp.
  - by rewrite Hb, Hbm.
  - intros b o. rewrite Hsl, Hom. apply Hs.
  - by rewrite Hb.
  - intros b. rewrite Hb. unfold bot_at. rewrite Hbm. apply Hch.
  - intros b. rewrite Hsl. unfold is_idle, bot_at. rewrite Hbm. apply Hid.
  - unfold in_flight. rewrite Hb.
    rewrite (omap_ext_in _ (slot s)) by (intros; apply Hsl).
    rewrite Hperm. simpl. apply NoDup_cons. done.
  - apply (partitioned_types s); [done|]. rewrite Hins.
    destruct (order_type s order) eqn:Hc.
    + exists vs, (ns ++ [order]). split; [by rewrite (assoc_L (++))|].
      split; [done|]. apply Forall_app. split; [done|].
      by apply Forall_singleton.
    + exists (vs ++ [order]), ns. split; [done|]. split; [|done].
      apply Forall_app. split; [done|]. by apply Forall_singleton.
  - by rewrite Ho.
  - by rewrite Hbi.
Qed.

(** ** Stores *)

Lemma order_at_store p o s q :
  order_at (store_order p o s) q =
    if decide (p = q ∧ p < length (orderMem s)) then o else order_at s q.
Proof. unfold order_at, store_order. simpl. apply list_lookup_total_insert. Qed.

Lemma bot_at_store p b s q :
  bot_at (store_bot p b s) q =
    if decide (p = q ∧ p < length (botMem s)) then b else bot_at s q.
Proof. unfold bot_at, store_bot. simpl. apply list_lookup_total_insert. Qed.

Lemma slot_valid s bot order : slot s bot = Some order → bot < length (botMem s).
Proof.
  unfold slot, bot_at. intros H.
  destruct (decide (bot < length (botMem s))); [done|].
  rewrite list_lookup_total_alt, lookup_ge_None_2 in H by lia. done.
Qed.

Lemma stopBotProcessing_idle bot s :
  slot s bot = None → stopBotProcessing bot s = Some (None, s).
Proof.
  unfold slot, stopBotProcessing. intros ->.
  by destruct (Bot.Status (bot_at s bot)).
Qed.

Lemma stopBotProcessing_processing bot order s :
  Bot.Status (bot_at s bot) = BotStatusProcessing →
  slot s bot = Some order → Bot.stopChan (bot_at s bot) = [] →
  stopBotProcessing bot s = Some (Some order, stopped bot order s).
Proof.
  intros Hst Hsl Hch. assert (Hb := slot_valid _ _ _ Hsl).
  unfold slot in Hsl. unfold stopBotProcessing. rewrite Hst, Hsl, Hch.
  simpl. do 2 f_equal.
  unfold stopped. rewrite Hch.
  unfold store_order, store_bot, order_at, bot_at. simpl.
  destruct (decide (order < length (orderMem s))) as [Ho | Ho].
  - rewrite !list_lookup_total_insert_eq by (rewrite ?length_insert; done).
    by rewrite !list_insert_insert_eq.
  - by rewrite !(list_insert_ge (orderMem s)) by lia.
Qed.

Lemma completeOrderProcessing_none now bot s :
  slot s bot = None → completeOrderProcessing now bot s = (None, s).
Proof. unfold slot, completeOrderProcessing. by intros ->. Qed.

Lemma completeOrderProcessing_some now bot order s :
  slot s bot = Some order →
  completeOrderProcessing now bot s = (Some order, completed now bot order s).
Proof.
  intros Hsl. assert (Hb := slot_valid _ _ _ Hsl).
  unfold slot in Hsl. unfold completeOrderProcessing. rewrite Hsl.
  f_equal.
  unfold completed, store_order, store_bot, order_at, bot_at. simpl.
  rewrite !list_lookup_total_insert_eq by (rewrite ?length_insert; done).
  rewrite !list_insert_insert_eq. simpl.
  destruct (decide (order < length (orderMem s))) as [Ho | Ho].
  - rewrite !list_lookup_total_insert_eq by (rewrite ?length_insert; done).
    by rewrite ?list_insert_insert_eq.
  - by rewrite !(list_insert_ge (orderMem s)) by lia.
Qed.

Lemma order_at_stopped bot order s p :
  order_at (stopped bot order s) p =
    if decide (order = p ∧ order < length (orderMem s))
    then Order.mk (Order.ID (order_at s order)) (Order.Type_ (order_at s order))
           OrderStatusPending 0%Z (Order.Created (order_at s order))
           (Order.Started (order_at s order)) (Order.Completed (order_at s order))
    else order_at s p.
Proof. unfold order_at, stopped. simpl. apply list_lookup_total_insert. Qed.

Lemma bot_at_stopped bot order s b :
  bot_at (stopped bot order s) b =
    if decide (bot = b ∧ bot < length (botMem s))
    then Bot.mk (Bot.ID (bot_at s bot)) (Bot.Status (bot_at s bot))
           (Bot.Order (bot_at s bot)) (Bot.stopChan (bot_at s bot) ++ [true])
    else bot_at s b.
Proof. unfold bot_at, stopped. simpl. apply list_lookup_total_insert. Qed.

Lemma order_at_completed now bot order s p :
  order_at (completed now bot order s) p =
    if decide (order = p ∧ order < length (orderMem s))
    then Order.mk (Order.ID (order_at s order)) (Order.Type_ (order_at s order))
           OrderStatusComplete (Order.BotID (order_at s order))
           (Order.Created (order_at s order))
           (Order.Started (order_at s order)) now
    else order_at s p.
Proof. unfold order_at, completed. simpl. apply list_lookup_total_insert. Qed.

Lemma bot_at_completed now bot order s b :
  bot_at (completed now bot order s) b =
    if decide (bot = b ∧ bot < length (botMem s))
    then Bot.mk (Bot.ID (bot_at s bot)) BotStatusIdle None
           (Bot.stopChan (bot_at s bot))
    else bot_at s b.
Proof. unfold bot_at, completed. simpl. apply list_lookup_total_insert. Qed.

Lemma extends_stopped bot order s : extends s (stopped bot order s).
Proof.
  constructor.
  - unfold stopped; simpl. by rewrite length_insert.
  - unfold stopped; simpl. by rewrite length_insert.
  - intros p _. rewrite order_at_stopped.
    case_ptr; done.
  - intros b _. rewrite bot_at_stopped.
    case_ptr; done.
Qed.

Lemma extends_completed now bot order s : extends s (completed now bot order s).
Proof.
  constructor.
  - unfold completed; simpl. by rewrite length_insert.
  - unfold completed; simpl. by rewrite length_insert.
  - intros p _. rewrite order_at_completed.
    case_ptr; done.
  - intros b _. rewrite bot_at_completed.
    case_ptr; done.
Qed.

(** ** Wrap-around *)

Lemma wrap64_int64 z : int64 (wrap64 z).
Proof.
  unfold int64, wrap64.
  pose proof (Z.mod_pos_bound (z + 2 ^ 63) (2 ^ 64) ltac:(lia)). lia.
Qed.

Lemma wrap64_id z : int64 z → wrap64 z = z.
Proof.
  unfold int64, wrap64. intros H. rewrite Z.mod_small by lia. lia.
Qed.

(** [int(atomic.AddInt64(&v, 1) - 1)] is the value [v] had. *)
Lemma atomic_add_old v : int64 v → wrap64 (atomic_AddInt64 v 1 - 1) = v.
Proof.
  unfold atomic_AddInt64, int64, wrap64. intros H.
  destruct (decide (v = 2 ^ 63 - 1)%Z) as [-> | Hne]; [done|].
  rewrite (Z.mod_small (v + 1 + 2 ^ 63)) by lia.
  rewrite Z.mod_small by lia. lia.
Qed.

(** ** The public methods, cut at their closing assignment pass *)

Lemma CreateNormalOrder_queued now s :
  CreateNormalOrder now s
  = assignOrdersToBots now (queued_new OrderTypeNormal now s).
Proof.
  unfold CreateNormalOrder, queued_new, insertOrderToPending, alloc_order,
    new_order, order_at. simpl.
  by rewrite list_lookup_total_middle.
Qed.

Lemma CreateVIPOrder_queued now s :
  CreateVIPOrder now s = assignOrdersToBots now (queued_new OrderTypeVIP now s).
Proof.
  unfold CreateVIPOrder, queued_new, insertOrderToPending, alloc_order,
    new_order, order_at. simpl.
  by rewrite list_lookup_total_middle.
Qed.

Lemma AddBot_pooled now s :
  AddBot now s = assignOrdersToBots now (pooled_new s).
Proof. done. Qed.

Lemma order_at_alloc ty now s p :
  p < length (orderMem s) → order_at (alloc_order ty now s) p = order_at s p.
Proof.
  intros Hp. unfold order_at, alloc_order. simpl.
  by rewrite lookup_total_app_l.
Qed.

Lemma order_at_alloc_new ty now s :
  order_at (alloc_order ty now s) (length (orderMem s))
  = Order.mk (wrap64 (atomic_AddInt64 (nextOrderID s) 1 - 1)%Z) ty
      OrderStatusPending 0%Z now 0%Z 0%Z.
Proof.
  unfold order_at, alloc_order. simpl. by rewrite list_lookup_total_middle.
Qed.

Lemma extends_alloc ty now s : extends s (alloc_order ty now s).
Proof.
  constructor.
  - unfold alloc_order; simpl. rewrite length_app. lia.
  - done.
  - intros p Hp. by rewrite order_at_alloc.
  - done.
Qed.

Lemma wf_owned_valid s x :
  wf s → x ∈ pendingOrders s ++ in_flight s → x < length (orderMem s).
Proof.
  intros Hwf [Hin | Hin]%elem_of_app.
  - destruct Hwf. rewrite Forall_forall in wf_pending0. auto.
  - unfold in_flight in Hin. apply list_elem_of_omap in Hin as (b & _ & Hb).
    destruct Hwf. eauto.
Qed.

Lemma wf_alloc ty now s : wf s → wf (alloc_order ty now s).
Proof.
  intros Hwf. apply (wf_update s); try done.
  - apply wrap64_int64.
  - by destruct Hwf.
  - unfold alloc_order; simpl. rewrite length_app. lia.
  - intros p Hp. unfold order_type. by rewrite order_at_alloc.
Qed.

Lemma wf_queued_new ty now s : wf s → wf (queued_new ty now s).
Proof.
  intros Hwf. apply wf_Log. apply wf_insertOrderToPending.
  - by apply wf_alloc.
  - unfold alloc_order; simpl. rewrite length_app. simpl. lia.
  - intros Hin.
    change (length (orderMem s) ∈ pendingOrders s ++ in_flight s) in Hin.
    apply wf_owned_valid in Hin; [lia | done].
Qed.

Lemma extends_insertOrderToPending order s :
  extends s (insertOrderToPending order s).
Proof.
  destruct (insertOrderToPending_frame order s)
    as (_ & _ & _ & _ & _ & _ & Hom & Hbm & _).
  constructor; unfold order_at, bot_at; rewrite ?Hom, ?Hbm; done.
Qed.

Lemma extends_queued_new ty now s : extends s (queued_new ty now s).
Proof.
  eapply extends_trans; [apply (extends_alloc ty now)|].
  eapply extends_trans; [apply extends_insertOrderToPending|].
  apply extends_Log.
Qed.

Lemma bot_at_pooled s b :
  b < length (botMem s) → bot_at (pooled_new s) b = bot_at s b.
Proof.
  intros Hb. unfold bot_at, pooled_new. simpl. by rewrite lookup_total_app_l.
Qed.

Lemma bot_at_pooled_new s :
  bot_at (pooled_new s) (length (botMem s))
  = Bot.mk (wrap64 (atomic_AddInt64 (nextBotID s) 1 - 1)%Z) BotStatusIdle None [].
Proof.
  unfold bot_at, pooled_new. simpl. by rewrite list_lookup_total_middle.
Qed.

Lemma bot_at_oob s b : length (botMem s) ≤ b → bot_at s b = Bot.zero.
Proof.
  intros Hb. unfold bot_at.
  by rewrite list_lookup_total_alt, lookup_ge_None_2.
Qed.

Lemma slot_pooled s b : slot (pooled_new s) b = slot s b.
Proof.
  unfold slot. destruct (decide (b < length (botMem s))) as [Hb | Hb].
  - by rewrite bot_at_pooled.
  - rewrite (bot_at_oob s) by lia.
    destruct (decide (b = length (botMem s))) as [-> | Hne].
    + by rewrite bot_at_pooled_new.
    + rewrite bot_at_oob; [done|].
      unfold pooled_new; simpl. rewrite length_app. simpl. lia.
Qed.

Lemma is_idle_pooled s b : is_idle (pooled_new s) b ↔ is_idle s b.
Proof.
  unfold is_idle. destruct (decide (b < length (botMem s))) as [Hb | Hb].
  - by rewrite bot_at_pooled.
  - rewrite (bot_at_oob s) by lia.
    destruct (decide (b = length (botMem s))) as [-> | Hne].
    + by rewrite bot_at_pooled_new.
    + rewrite bot_at_oob; [done|].
      unfold pooled_new; simpl. rewrite length_app. simpl. lia.
Qed.

Lemma wf_pooled_new s : wf s → wf (pooled_new s).
Proof.
  intros [Hp Hb Hs Hnd Hch Hid Hown Hpart Ho Hbi].
  assert (Hfresh : length (botMem s) ∉ bots s).
  { intros Hin. rewrite Forall_forall in Hb. apply Hb in Hin. lia. }
  constructor.
  - done.
  - change (Forall (λ b, b < length (botMem s ++ [Bot.mk
        (wrap64 (atomic_AddInt64 (nextBotID s) 1 - 1)%Z) BotStatusIdle None []]))
      (bots s ++ [length (botMem s)])).
    rewrite length_app. simpl. apply Forall_app. split.
    + eapply Forall_impl; [exact Hb|]. simpl. lia.
    + apply Forall_singleton. lia.
  - intros b o. rewrite slot_pooled. apply Hs.
  - change (NoDup (bots s ++ [length (botMem s)])).
    apply NoDup_app. split; [done|]. split; [|apply NoDup_singleton].
    intros x Hx ->%list_elem_of_singleton. done.
  - intros b. change (b ∈ bots s ++ [length (botMem s)] →
      Bot.stopChan (bot_at (pooled_new s) b) = []).
    intros [Hin | ->%list_elem_of_singleton]%elem_of_app.
    + rewrite bot_at_pooled; [by apply Hch|].
      rewrite Forall_forall in Hb. by apply Hb.
    + by rewrite bot_at_pooled_new.
  - intros b. rewrite is_idle_pooled, slot_pooled. apply Hid.
  - change (NoDup (pendingOrders s
      ++ omap (slot (pooled_new s)) (bots s ++ [length (botMem s)]))).
    rewrite omap_app. csimpl. rewrite slot_pooled.
    assert (slot s (length (botMem s)) = None) as ->.
    { unfold slot. by rewrite bot_at_oob. }
    rewrite app_nil_r.
    rewrite (omap_ext_in _ (slot s)) by (intros; apply slot_pooled). done.
  - done.
  - done.
  - apply wrap64_int64.
Qed.

Lemma extends_pooled_new s : extends s (pooled_new s).
Proof.
  constructor; try done.
  - unfold pooled_new; simpl. rewrite length_app. lia.
  - intros b Hb. by rewrite bot_at_pooled.
Qed.

(** ** Removing a bot *)

Lemma removeBotFromList_nil s :
  bots s = [] → removeBotFromList s = (None, s).
Proof. unfold removeBotFromList. by intros ->. Qed.

Lemma removeBotFromList_snoc s bs bot :
  bots s = bs ++ [bot] → removeBotFromList s = (Some bot, set_bots bs s).
Proof.
  unfold removeBotFromList. intros ->.
  rewrite decide_False by (rewrite length_app; simpl; lia).
  assert (length (bs ++ [bot]) - 1 = length bs) as ->
    by (rewrite length_app; simpl; lia).
  by rewrite list_lookup_middle, take_app_length.
Qed.

Lemma bots_nil_or_snoc s : bots s = [] ∨ ∃ bs bot, bots s = bs ++ [bot].
Proof.
  destruct (bots s) as [|b l] using rev_ind; [by left | right; eauto].
Qed.

Lemma RemoveBot_empty now s : bots s = [] → RemoveBot now s = Some s.
Proof. intros H. unfold RemoveBot. by rewrite removeBotFromList_nil. Qed.

Lemma RemoveBot_idle now s bs bot :
  bots s = bs ++ [bot] → slot s bot = None →
  RemoveBot now s
  = Some (assignOrdersToBots now
            (Log (MsgDestroyedIdle (Bot.ID (bot_at s bot))) (set_bots bs s))).
Proof.
  intros Hb Hsl. unfold RemoveBot.
  rewrite (removeBotFromList_snoc s bs bot Hb).
  by rewrite stopBotProcessing_idle.
Qed.

Lemma RemoveBot_processing now s bs bot order :
  bots s = bs ++ [bot] →
  Bot.Status (bot_at s bot) = BotStatusProcessing →
  slot s bot = Some order → Bot.stopChan (bot_at s bot) = [] →
  RemoveBot now s
  = Some (assignOrdersToBots now
            (requeued bot order (stopped bot order (set_bots bs s)))).
Proof.
  intros Hb Hst Hsl Hch. unfold RemoveBot.
  rewrite (removeBotFromList_snoc s bs bot Hb).
  rewrite (stopBotProcessing_processing bot order) by done.
  simpl. unfold handleProcessingBotRemoval, requeued.
  destruct (insertOrderToPending_frame order (stopped bot order (set_bots bs s)))
    as (_ & _ & _ & _ & _ & _ & Hom & Hbm & _).
  unfold order_at, bot_at. by rewrite Hom, Hbm.
Qed.

Lemma omap_sublist {A B} (f g : A → option B) (l : list A) :
  (∀ x, g x = f x ∨ g x = None) → omap g l `sublist_of` omap f l.
Proof.
  intros H. induction l as [|x l IH]; [done|]. csimpl.
  destruct (H x) as [-> | ->].
  - destruct (f x); [by apply sublist_skip | done].
  - destruct (f x); [by apply sublist_cons | done].
Qed.

Lemma wf_pop_bot s bs bot :
  wf s → bots s = bs ++ [bot] → wf (set_bots bs s).
Proof.
  intros [Hp Hb Hs Hnd Hch Hid Hown Hpart Ho Hbi] Hbs.
  rewrite Hbs in Hb, Hnd, Hch. unfold in_flight in Hown. rewrite Hbs in Hown.
  constructor; try done.
  - change (Forall (λ b, b < length (botMem s)) bs).
    by apply Forall_app in Hb as [? _].
  - change (NoDup bs). by apply NoDup_app in Hnd as [? _].
  - intros b Hin. apply Hch. apply elem_of_app. by left.
  - change (NoDup (pendingOrders s ++ omap (slot s) bs)).
    rewrite omap_app, (assoc_L (++)) in Hown.
    by apply NoDup_app in Hown as [? _].
Qed.

Lemma wf_stopped s bot order :
  wf s → bot ∉ bots s → wf (stopped bot order s).
Proof.
  intros Hwf Hnotin. apply (wf_update s); try done; try by destruct Hwf.
  - unfold stopped; simpl. by rewrite length_insert.
  - unfold stopped; simpl. by rewrite length_insert.
  - intros p _. unfold order_type. rewrite order_at_stopped.
    case_ptr; done.
  - intros b. unfold slot. rewrite bot_at_stopped.
    case_ptr; done.
  - intros b. unfold is_idle. rewrite bot_at_stopped.
    case_ptr; done.
  - intros b Hin. rewrite bot_at_stopped.
    case_ptr; done.
Qed.

Lemma wf_requeued s bot order :
  wf s → order < length (orderMem s) →
  order ∉ pendingOrders s ++ in_flight s →
  wf (requeued bot order s).
Proof. intros. apply wf_Log. by apply wf_insertOrderToPending. Qed.

Lemma saturated_same s s' :
  pendingOrders s' = pendingOrders s → bots s' = bots s →
  (∀ b, b ∈ bots s → is_idle s' b → is_idle s b) →
  saturated s → saturated s'.
Proof.
  unfold saturated. intros -> -> Hidle [? | H]; [by left | right].
  intros b Hin Hi. by apply (H b Hin), Hidle.
Qed.

(** What [RemoveBot] does, by the state of the last bot of the pool. *)
Lemma RemoveBot_cases now s :
  wf s →
  (bots s = [] ∧ RemoveBot now s = Some s)
  ∨ (∃ bs bot, bots s = bs ++ [bot] ∧ is_idle s bot ∧ slot s bot = None
       ∧ RemoveBot now s
         = Some (assignOrdersToBots now
                   (Log (MsgDestroyedIdle (Bot.ID (bot_at s bot)))
                      (set_bots bs s))))
  ∨ (∃ bs bot order, bots s = bs ++ [bot]
       ∧ Bot.Status (bot_at s bot) = BotStatusProcessing
       ∧ slot s bot = Some order
       ∧ RemoveBot now s
         = Some (assignOrdersToBots now
                   (requeued bot order (stopped bot order (set_bots bs s))))).
Proof.
  intros Hwf. destruct (bots_nil_or_snoc s) as [Hnil | (bs & bot & Hbs)].
  - left. split; [done | by apply RemoveBot_empty].
  - right. destruct (slot s bot) as [order|] eqn:Hsl.
    + right. exists bs, bot, order.
      assert (Hst : Bot.Status (bot_at s bot) = BotStatusProcessing).
      { destruct (Bot.Status (bot_at s bot)) eqn:Hst; [|done].
        apply (wf_idle s Hwf) in Hst. congruence. }
      split; [done|]. split; [done|]. split; [done|].
      apply RemoveBot_processing; try done.
      apply (wf_chan s Hwf). rewrite Hbs. apply elem_of_app. right.
      by apply list_elem_of_singleton.
    + left. exists bs, bot. split; [done|].
      split; [by apply (wf_idle s Hwf)|]. split; [done|].
      by apply RemoveBot_idle.
Qed.

Lemma wf_removed_processing s bs bot order :
  wf s → bots s = bs ++ [bot] → slot s bot = Some order →
  wf (requeued bot order (stopped bot order (set_bots bs s))).
Proof.
  intros Hwf Hbs Hsl.
  assert (Hnotin : bot ∉ bs).
  { destruct Hwf. rewrite Hbs in wf_pool0.
    apply NoDup_app in wf_pool0 as (_ & Hdis & _). intros Hin.
    apply (Hdis bot Hin). by apply list_elem_of_singleton. }
  assert (Hwf1 := wf_pop_bot s bs bot Hwf Hbs).
  assert (Hwf2 : wf (stopped bot order (set_bots bs s)))
    by (by apply wf_stopped).
  apply wf_requeued; [done| |].
  - unfold stopped; simpl. rewrite length_insert. by apply (wf_slot s Hwf bot).
  - assert (Hown := wf_owned s Hwf). unfold in_flight in Hown.
    rewrite Hbs, omap_app in Hown. csimpl in Hown. rewrite Hsl in Hown.
    csimpl in Hown. rewrite (assoc_L (++)) in Hown.
    apply NoDup_app in Hown as (_ & Hdis & _).
    intros Hin. apply (Hdis order); [|by apply list_elem_of_singleton].
    assert (Heq : in_flight (stopped bot order (set_bots bs s))
                  = omap (slot s) bs).
    { unfold in_flight. apply omap_ext_in. intros b Hb.
      unfold slot. rewrite bot_at_stopped.
      case_ptr; done. }
    by rewrite Heq in Hin.
Qed.

Lemma extends_set_bots bs s : extends s (set_bots bs s).
Proof. by constructor. Qed.

Lemma extends_requeued bot order s : extends s (requeued bot order s).
Proof.
  eapply extends_trans; [apply extends_insertOrderToPending | apply extends_Log].
Qed.

(** ** The goroutine *)

Lemma finalizeOrderCompletion_reported now bot order s :
  finalizeOrderCompletion now bot order s
  = let s' := assignOrdersToBots now (reported bot order s) in
    if bool_decide (0 < length (pendingOrders s)) then s'
    else Log (MsgNowIdle (Bot.ID (bot_at s' bot))) s'.
Proof.
  unfold finalizeOrderCompletion, reported. simpl.
  by destruct (bool_decide (0 < length (pendingOrders s))).
Qed.

Lemma processOrder_stop g now s r v ch :
  routines s !! g = Some r → Routine.returned r = false →
  Bot.stopChan (bot_at s (Routine.bot r)) = v :: ch →
  processOrder g CaseStop now s
  = Some (retire g r (store_bot (Routine.bot r)
                        (Bot.set_stopChan ch (bot_at s (Routine.bot r))) s)).
Proof.
  intros Hg Hr Hch. unfold processOrder. rewrite Hg. simpl.
  by rewrite Hr, Hch.
Qed.

Lemma processOrder_early g now s r :
  routines s !! g = Some r → Routine.returned r = false →
  ¬ (time_Since now (Routine.startTime r) >= duration)%Z →
  processOrder g CaseTick now s = Some s.
Proof.
  intros Hg Hr Ht. unfold processOrder. rewrite Hg. simpl.
  rewrite Hr. by rewrite decide_False.
Qed.

Lemma processOrder_nil g now s r :
  routines s !! g = Some r → Routine.returned r = false →
  (time_Since now (Routine.startTime r) >= duration)%Z →
  slot s (Routine.bot r) = None →
  processOrder g CaseTick now s = Some (retire g r s).
Proof.
  intros Hg Hr Ht Hsl. unfold processOrder. rewrite Hg. simpl.
  rewrite Hr. rewrite decide_True by done.
  by rewrite completeOrderProcessing_none.
Qed.

Lemma processOrder_complete g now s r order :
  routines s !! g = Some r → Routine.returned r = false →
  (time_Since now (Routine.startTime r) >= duration)%Z →
  slot s (Routine.bot r) = Some order →
  processOrder g CaseTick now s
  = Some (finalizeOrderCompletion now (Routine.bot r) order
            (completed now (Routine.bot r) order (retire g r s))).
Proof.
  intros Hg Hr Ht Hsl. unfold processOrder. rewrite Hg. simpl.
  rewrite Hr. rewrite decide_True by done.
  by rewrite (completeOrderProcessing_some now _ order).
Qed.

(** Every way one iteration of the goroutine's loop can go. *)
Lemma processOrder_cases g c now s s' :
  processOrder g c now s = Some s' →
  ∃ r, routines s !! g = Some r ∧ Routine.returned r = false ∧
    ((c = CaseStop ∧ ∃ v ch,
        Bot.stopChan (bot_at s (Routine.bot r)) = v :: ch
        ∧ s' = retire g r (store_bot (Routine.bot r)
                 (Bot.set_stopChan ch (bot_at s (Routine.bot r))) s))
     ∨ (c = CaseTick
        ∧ ¬ (time_Since now (Routine.startTime r) >= duration)%Z ∧ s' = s)
     ∨ (c = CaseTick
        ∧ (time_Since now (Routine.startTime r) >= duration)%Z
        ∧ slot s (Routine.bot r) = None ∧ s' = retire g r s)
     ∨ (c = CaseTick
        ∧ (time_Since now (Routine.startTime r) >= duration)%Z
        ∧ ∃ order, slot s (Routine.bot r) = Some order
        ∧ s' = finalizeOrderCompletion now (Routine.bot r) order
                 (completed now (Routine.bot r) order (retire g r s)))).
Proof.
  intros H. destruct (routines s !! g) as [r|] eqn:Hg;
    [|by unfold processOrder in H; rewrite Hg in H].
  exists r. split; [done|].
  destruct (Routine.returned r) eqn:Hr;
    [by unfold processOrder in H; rewrite Hg in H; simpl in H; rewrite Hr in H|].
  split; [done|]. destruct c.
  - left. split; [done|].
    destruct (Bot.stopChan (bot_at s (Routine.bot r))) as [|v ch] eqn:Hch.
    + unfold processOrder in H. rewrite Hg in H. simpl in H.
      by rewrite Hr, Hch in H.
    + exists v, ch. split; [done|].
      rewrite (processOrder_stop g now s r v ch) in H by done. congruence.
  - right.
    destruct (decide (time_Since now (Routine.startTime r) >= duration)%Z)
      as [Ht | Ht].
    + right. destruct (slot s (Routine.bot r)) as [order|] eqn:Hsl.
      * right. split; [done|]. split; [done|]. exists order. split; [done|].
        rewrite (processOrder_complete g now s r order) in H by done.
        congruence.
      * left. split; [done|]. split; [done|]. split; [done|].
        rewrite (processOrder_nil g now s r) in H by done. congruence.
    + left. split; [done|]. split; [done|].
      rewrite (processOrder_early g now s r) in H by done. congruence.
Qed.

Lemma wf_retire g r s : wf s → wf (retire g r s).
Proof. intros Hwf. apply (wf_update s); try done; by destruct Hwf. Qed.

Lemma extends_retire g r s : extends s (retire g r s).
Proof. by constructor. Qed.

Lemma wf_completed now bot order s :
  wf s → slot s bot = Some order → wf (completed now bot order s).
Proof.
  intros Hwf Hsl. assert (Hb := slot_valid _ _ _ Hsl).
  assert (Hslot : ∀ b, slot (completed now bot order s) b
                       = if decide (bot = b) then None else slot s b).
  { intros b. unfold slot. rewrite bot_at_completed.
    repeat case_decide; naive_solver. }
  assert (Hidle : ∀ b, is_idle (completed now bot order s) b
                       ↔ bot = b ∨ is_idle s b).
  { intros b. unfold is_idle. rewrite bot_at_completed.
    case_decide; naive_solver. }
  destruct Hwf as [Hp Hbs Hs Hnd Hch Hid Hown Hpart Ho Hbi].
  constructor; try done.
  - unfold completed; simpl. by rewrite length_insert.
  - unfold completed; simpl. by rewrite length_insert.
  - intros b o. rewrite Hslot. unfold completed; simpl.
    rewrite length_insert. case_decide; [done | apply Hs].
  - intros b Hin. rewrite bot_at_completed.
    case_ptr; simpl; by apply Hch.
  - intros b. rewrite Hidle, Hslot. case_decide; [naive_solver|].
    rewrite <- Hid. naive_solver.
  - change (NoDup (pendingOrders s
                   ++ omap (slot (completed now bot order s)) (bots s))).
    eapply sublist_NoDup; [exact Hown|].
    apply sublist_app; [done|]. apply omap_sublist.
    intros b. rewrite Hslot. case_decide; auto.
  - change (partitioned (completed now bot order s) (pendingOrders s)).
    apply (partitioned_types s); [|done].
    intros p. unfold order_type. rewrite order_at_completed.
    case_ptr; done.
Qed.

Lemma wf_reported bot order s : wf s → wf (reported bot order s).
Proof. intros Hwf. apply (wf_update s); try done; by destruct Hwf. Qed.

Lemma extends_reported bot order s : extends s (reported bot order s).
Proof. by constructor. Qed.

Lemma saturated_Log m s : saturated s → saturated (Log m s).
Proof. done. Qed.

Lemma finalizeOrderCompletion_spec now bot order s :
  wf s →
  inv (finalizeOrderCompletion now bot order s)
  ∧ extends s (finalizeOrderCompletion now bot order s).
Proof.
  intros Hwf. rewrite finalizeOrderCompletion_reported.
  destruct (assignOrdersToBots_spec now (reported bot order s)
              (wf_reported _ _ _ Hwf)) as (Hwf' & _ & Hext & Hsat).
  assert (Hext' : extends s (assignOrdersToBots now (reported bot order s)))
    by (eapply extends_trans; [apply extends_reported | done]).
  simpl. destruct (bool_decide (0 < length (pendingOrders s))).
  - done.
  - split; [split; [by apply wf_Log | done]|].
    eapply extends_trans; [done | apply extends_Log].
Qed.

(** ** The invariant along a run *)

Lemma inv_init : inv NewOrderController.
Proof.
  split.
  - constructor.
    + apply Forall_nil_2.
    + apply Forall_nil_2.
    + intros b o. unfold slot, bot_at. simpl. done.
    + apply NoDup_nil_2.
    + intros b Hb. by apply elem_of_nil in Hb.
    + intros b. unfold is_idle, slot, bot_at. simpl. done.
    + apply NoDup_nil_2.
    + exists [], []. done.
    + unfold int64. simpl. lia.
    + unfold int64. simpl. lia.
  - by left.
Qed.

Lemma step_inv e s s' : inv s → step e s = Some s' → inv s' ∧ extends s s'.
Proof.
  intros [Hwf Hsat] Hstep. destruct e as [now|now|now|now|now|g c now];
    simpl in Hstep.
  - injection Hstep as <-. rewrite CreateNormalOrder_queued.
    destruct (assignOrdersToBots_spec now _ (wf_queued_new OrderTypeNormal now s Hwf))
      as (H1 & _ & H3 & H4).
    split; [done|]. eapply extends_trans; [apply extends_queued_new | done].
  - injection Hstep as <-. rewrite CreateVIPOrder_queued.
    destruct (assignOrdersToBots_spec now _ (wf_queued_new OrderTypeVIP now s Hwf))
      as (H1 & _ & H3 & H4).
    split; [done|]. eapply extends_trans; [apply extends_queued_new | done].
  - injection Hstep as <-. rewrite AddBot_pooled.
    destruct (assignOrdersToBots_spec now _ (wf_pooled_new s Hwf))
      as (H1 & _ & H3 & H4).
    split; [done|]. eapply extends_trans; [apply extends_pooled_new | done].
  - destruct (RemoveBot_cases now s Hwf)
      as [[_ Heq] | [(bs & bot & Hbs & _ & _ & Heq)
                    | (bs & bot & order & Hbs & _ & Hsl & Heq)]];
      rewrite Heq in Hstep; injection Hstep as <-.
    + split; [done | apply extends_refl].
    + assert (Hwf1 : wf (Log (MsgDestroyedIdle (Bot.ID (bot_at s bot)))
                           (set_bots bs s)))
        by (apply wf_Log; by eapply wf_pop_bot).
      destruct (assignOrdersToBots_spec now _ Hwf1) as (H1 & _ & H3 & H4).
      split; [done|]. eapply extends_trans; [|done]. by constructor.
    + assert (Hwf1 := wf_removed_processing s bs bot order Hwf Hbs Hsl).
      destruct (assignOrdersToBots_spec now _ Hwf1) as (H1 & _ & H3 & H4).
      split; [done|].
      eapply extends_trans; [apply (extends_set_bots bs)|].
      eapply extends_trans; [apply (extends_stopped bot order)|].
      eapply extends_trans; [apply (extends_requeued bot order) | done].
  - injection Hstep as <-. unfold Wait.
    destruct (assignOrdersToBots_spec now s Hwf) as (H1 & _ & H3 & H4). done.
  - destruct (processOrder_cases g c now s s' Hstep)
      as (r & Hg & Hr & [(-> & v & ch & Hch & ->)
                        | [(-> & Ht & ->)
                          | [(-> & Ht & Hsl & ->)
                            | (-> & Ht & order & Hsl & ->)]]]).
    + assert (Hnotin : Routine.bot r ∉ bots s).
      { intros Hin. apply (wf_chan s Hwf) in Hin. congruence. }
      assert (Hbot : ∀ b,
        bot_at (retire g r (store_bot (Routine.bot r)
                  (Bot.set_stopChan ch (bot_at s (Routine.bot r))) s)) b
        = if decide (Routine.bot r = b ∧ Routine.bot r < length (botMem s))
          then Bot.set_stopChan ch (bot_at s (Routine.bot r))
          else bot_at s b).
      { intros b. apply bot_at_store. }
      split; [split|].
      * apply (wf_update s); try done; try by destruct Hwf.
        -- unfold retire, set_routine, store_bot; simpl.
           by rewrite length_insert.
        -- intros b. unfold slot. rewrite Hbot.
           case_ptr; done.
        -- intros b. unfold is_idle. rewrite Hbot.
           case_ptr; done.
        -- intros b Hin. rewrite Hbot.
           case_ptr; done.
      * eapply saturated_same; [| | |exact Hsat]; try done.
        intros b _. unfold is_idle. rewrite Hbot.
        case_ptr; done.
      * constructor; try done.
        -- unfold retire, set_routine, store_bot; simpl.
           by rewrite length_insert.
        -- intros b _. rewrite Hbot.
           case_ptr; done.
    + split; [done | apply extends_refl].
    + split; [split; [by apply wf_retire | done] | apply extends_retire].
    + assert (Hwf1 : wf (completed now (Routine.bot r) order (retire g r s)))
        by (apply wf_completed; [by apply wf_retire | done]).
      destruct (finalizeOrderCompletion_spec now (Routine.bot r) order _ Hwf1)
        as [Hinv Hext].
      split; [done|].
      eapply extends_trans; [apply (extends_retire g r)|].
      eapply extends_trans; [apply (extends_completed now (Routine.bot r) order)|].
      done.
Qed.

Lemma run_inv tr s s' : inv s → run tr s = Some s' → inv s' ∧ extends s s'.
Proof.
  revert s. induction tr as [|e tr IH]; intros s Hinv Hrun; simpl in Hrun.
  - injection Hrun as <-. split; [done | apply extends_refl].
  - destruct (step e s) as [s1|] eqn:Hstep; [|done]. simpl in Hrun.
    destruct (step_inv e s s1 Hinv Hstep) as [Hinv1 Hext1].
    destruct (IH s1 Hinv1 Hrun) as [Hinv' Hext'].
    split; [done | by eapply extends_trans].
Qed.

Lemma run_init_inv tr s : run tr NewOrderController = Some s → inv s.
Proof. intros H. by destruct (run_inv tr _ _ inv_init H). Qed.

(** ** First in, first out within a class *)

Lemma class_view_ext c s s' q :
  (∀ p, p ∈ q → order_type s' p = order_type s p) →
  class_view c s' q = class_view c s q.
Proof.
  intros H. unfold class_view. induction q as [|x q IH]; [done|].
  assert (Hx : order_type s' x = order_type s x)
    by (apply H, elem_of_cons; by left).
  assert (IH' : filter (is_class c s') q = filter (is_class c s) q)
    by (apply IH; intros p Hp; apply H, elem_of_cons; by right).
  rewrite !filter_cons, IH'.
  destruct (decide (is_class c s' x)) as [H1|H1],
    (decide (is_class c s x)) as [H2|H2]; try done;
    unfold is_class in *; congruence.
Qed.

Lemma class_view_drop c s k q :
  class_view c s (drop k q) `suffix_of` class_view c s q.
Proof.
  unfold class_view. rewrite <- (take_drop k q) at 2. rewrite filter_app.
  by apply suffix_app_r.
Qed.

Lemma extends_type s s' p :
  extends s s' → p < length (orderMem s) → order_type s' p = order_type s p.
Proof. intros [_ _ H _] Hp. unfold order_type. by destruct (H p Hp) as (_ & ? & _). Qed.

(** Pops and writes to the stores keep the queue first in, first out. *)
Lemma fifo_stable s s' h :
  fifo s h → wf s → extends s s' →
  (∃ k, pendingOrders s' = drop k (pendingOrders s)) →
  fifo s' h.
Proof.
  intros [Hval Hsuf] Hwf Hext [k Hk]. split.
  - eapply Forall_impl; [exact Hval|]. simpl. intros p Hp.
    destruct Hext. lia.
  - intros c. rewrite Hk.
    rewrite (class_view_ext c s s' h).
    2:{ intros p Hp. apply extends_type; [done|].
        rewrite Forall_forall in Hval. by apply Hval. }
    rewrite (class_view_ext c s s' (drop k (pendingOrders s))).
    2:{ intros p Hp. apply extends_type; [done|].
        assert (Hin : p ∈ pendingOrders s).
        { rewrite <- (take_drop k (pendingOrders s)). apply elem_of_app. by right. }
        destruct Hwf. rewrite Forall_forall in wf_pending0. by apply wf_pending0. }
    etrans; [apply class_view_drop | apply Hsuf].
Qed.

Lemma class_view_normals c s ns :
  Forall (is_class OrderTypeNormal s) ns → c = OrderTypeVIP →
  class_view c s ns = [].
Proof.
  intros H ->. unfold class_view. induction ns as [|n ns IH]; [done|].
  apply Forall_cons_1 in H as [Hn Hns].
  rewrite filter_cons_False; [by apply IH|].
  unfold is_class in *. congruence.
Qed.

(** An insertion lands behind the orders of its class. *)
Lemma class_view_insert c order s :
  wf s →
  class_view c s (pendingOrders (insertOrderToPending order s))
  = class_view c s (pendingOrders s) ++ class_view c s [order].
Proof.
  intros Hwf. destruct (wf_partitioned s Hwf) as (vs & ns & Hq & Hv & Hn).
  rewrite (insertOrderToPending_partitioned order s vs ns Hq Hv Hn), Hq.
  unfold class_view.
  destruct (order_type s order) eqn:Hty.
  - by rewrite filter_app.
  - rewrite !filter_app. rewrite <- !(assoc_L (++)). f_equal.
    destruct c.
    + rewrite (filter_cons_False _ order) by (unfold is_class; congruence).
      rewrite filter_nil. by rewrite app_nil_r.
    + fold (class_view OrderTypeVIP s ns).
      rewrite (class_view_normals _ s ns) by done. by rewrite app_nil_r.
Qed.

Lemma fifo_insert order s h :
  fifo s h → wf s → order < length (orderMem s) →
  fifo (insertOrderToPending order s) (h ++ [order]).
Proof.
  intros [Hval Hsuf] Hwf Ho.
  destruct (insertOrderToPending_frame order s)
    as (_ & _ & _ & _ & _ & _ & Hom & _ & _).
  assert (Hty : ∀ p, order_type (insertOrderToPending order s) p = order_type s p)
    by (intros p; unfold order_type, order_at; by rewrite Hom).
  split.
  - rewrite Hom. apply Forall_app. split; [done | by apply Forall_singleton].
  - intros c. rewrite !(class_view_ext c s (insertOrderToPending order s))
      by (intros; apply Hty).
    rewrite class_view_insert by done.
    unfold class_view at 3. rewrite filter_app. by apply suffix_app.
Qed.

Lemma fifo_same s s' h :
  fifo s h → pendingOrders s' = pendingOrders s → orderMem s' = orderMem s →
  fifo s' h.
Proof.
  intros [Hval Hsuf] Hq Hom. split; [by rewrite Hom|].
  intros c. rewrite Hq.
  rewrite !(class_view_ext c s s')
    by (intros; unfold order_type, order_at; by rewrite Hom).
  apply Hsuf.
Qed.

Lemma fifo_pass now s h :
  fifo s h → wf s → fifo (assignOrdersToBots now s) h.
Proof.
  intros Hf Hwf.
  destruct (assignOrdersToBots_spec now s Hwf) as (_ & Hpass & Hext & _).
  eapply fifo_stable; try done. by destruct Hpass.
Qed.

Lemma inserted_RemoveBot_empty now s :
  bots s = [] → inserted (ERemoveBot now) s = [].
Proof. intros H. unfold inserted. by rewrite removeBotFromList_nil. Qed.

Lemma inserted_RemoveBot_idle now s bs bot :
  bots s = bs ++ [bot] → slot s bot = None → inserted (ERemoveBot now) s = [].
Proof.
  intros Hb Hsl. unfold inserted.
  rewrite (removeBotFromList_snoc s bs bot Hb).
  by rewrite stopBotProcessing_idle.
Qed.

Lemma inserted_RemoveBot_processing now s bs bot order :
  bots s = bs ++ [bot] →
  Bot.Status (bot_at s bot) = BotStatusProcessing →
  slot s bot = Some order → Bot.stopChan (bot_at s bot) = [] →
  inserted (ERemoveBot now) s = [order].
Proof.
  intros Hb Hst Hsl Hch. unfold inserted.
  rewrite (removeBotFromList_snoc s bs bot Hb).
  by rewrite (stopBotProcessing_processing bot order).
Qed.

Lemma fifo_step e s s' h :
  inv s → fifo s h → step e s = Some s' → fifo s' (h ++ inserted e s).
Proof.
  intros [Hwf Hsat] Hf Hstep.
  destruct e as [now|now|now|now|now|g c now]; simpl in Hstep.
  - injection Hstep as <-. rewrite CreateNormalOrder_queued.
    apply fifo_pass; [|by apply wf_queued_new].
    unfold queued_new. eapply fifo_same; [|done|done].
    apply fifo_insert.
    + eapply fifo_stable; [done | done | apply extends_alloc | by exists 0].
    + by apply wf_alloc.
    + unfold alloc_order; simpl. rewrite length_app. simpl. lia.
  - injection Hstep as <-. rewrite CreateVIPOrder_queued.
    apply fifo_pass; [|by apply wf_queued_new].
    unfold queued_new. eapply fifo_same; [|done|done].
    apply fifo_insert.
    + eapply fifo_stable; [done | done | apply extends_alloc | by exists 0].
    + by apply wf_alloc.
    + unfold alloc_order; simpl. rewrite length_app. simpl. lia.
  - injection Hstep as <-. rewrite AddBot_pooled. simpl. rewrite app_nil_r.
    apply fifo_pass; [|by apply wf_pooled_new].
    eapply fifo_same; [exact Hf | done | done].
  - destruct (RemoveBot_cases now s Hwf)
      as [[Hnil Heq] | [(bs & bot & Hbs & _ & Hsl & Heq)
                       | (bs & bot & order & Hbs & Hst & Hsl & Heq)]];
      rewrite Heq in Hstep; injection Hstep as <-.
    + rewrite inserted_RemoveBot_empty by done. by rewrite app_nil_r.
    + rewrite (inserted_RemoveBot_idle now s bs bot) by done.
      rewrite app_nil_r. apply fifo_pass.
      * eapply fifo_same; [exact Hf | done | done].
      * apply wf_Log. by eapply wf_pop_bot.
    + assert (Hch : Bot.stopChan (bot_at s bot) = []).
      { apply (wf_chan s Hwf). rewrite Hbs. apply elem_of_app. right.
        by apply list_elem_of_singleton. }
      rewrite (inserted_RemoveBot_processing now s bs bot order) by done.
      assert (Hnotin : bot ∉ bs).
      { destruct Hwf. rewrite Hbs in wf_pool0.
        apply NoDup_app in wf_pool0 as (_ & Hdis & _). intros Hin.
        apply (Hdis bot Hin). by apply list_elem_of_singleton. }
      assert (Hwf1 := wf_pop_bot s bs bot Hwf Hbs).
      assert (Hwf2 : wf (stopped bot order (set_bots bs s)))
        by (by apply wf_stopped).
      apply fifo_pass; [|by apply wf_removed_processing].
      unfold requeued. eapply fifo_same; [|done|done].
      apply fifo_insert; [|done|].
      * eapply fifo_stable; [| exact Hwf1 | apply extends_stopped | by exists 0].
        eapply fifo_same; [exact Hf | done | done].
      * unfold stopped; simpl. rewrite length_insert.
        by apply (wf_slot s Hwf bot).
  - injection Hstep as <-. simpl. rewrite app_nil_r. by apply fifo_pass.
  - simpl. rewrite app_nil_r.
    destruct (step_inv (ESelect g c now) s s' (conj Hwf Hsat) Hstep)
      as [_ Hext].
    eapply fifo_stable; [exact Hf | done | done |].
    destruct (processOrder_cases g c now s s' Hstep)
      as (r & Hg & Hr & [(-> & v & ch & Hch & ->)
                        | [(-> & Ht & ->)
                          | [(-> & Ht & Hsl & ->)
                            | (-> & Ht & order & Hsl & ->)]]]).
    + by exists 0.
    + by exists 0.
    + by exists 0.
    + rewrite finalizeOrderCompletion_reported.
      assert (Hwf1 : wf (reported (Routine.bot r) order
                           (completed now (Routine.bot r) order (retire g r s)))).
      { apply wf_reported, wf_completed; [by apply wf_retire | done]. }
      destruct (assignOrdersToBots_spec now _ Hwf1) as (_ & Hpass & _ & _).
      destruct Hpass. simpl.
      destruct (bool_decide _); exact pass_pending0.
Qed.

Lemma fifo_run tr s s' h :
  inv s → fifo s h → run tr s = Some s' → fifo s' (h ++ history tr s).
Proof.
  revert s h. induction tr as [|e tr IH]; intros s h Hinv Hf Hrun;
    simpl in Hrun.
  - injection Hrun as <-. simpl. by rewrite app_nil_r.
  - destruct (step e s) as [s1|] eqn:Hstep; [|done]. simpl in Hrun.
    simpl. rewrite Hstep. rewrite (assoc_L (++)).
    apply (IH s1); [by destruct (step_inv e s s1 Hinv Hstep) | | done].
    by apply fifo_step.
Qed.

(** C1.  In every state a run of creations, bot additions and removals,
    waits and goroutine steps can reach, the pending queue is a run of VIP
    orders followed by a run of Normal orders, and the orders of each class
    in the queue are the most recent insertions of that class, in insertion
    order: an order leaves its class at the front and enters at the back. *)
Theorem pending_queue_partitioned_fifo (tr : list event) (s : State) :
  run tr NewOrderController = Some s →
  partitioned s (pendingOrders s)
  ∧ ∀ c, class_view c s (pendingOrders s)
         `suffix_of` class_view c s (history tr NewOrderController).
Proof.
  intros Hrun. split.
  - apply wf_partitioned. by destruct (run_init_inv tr s Hrun).
  - assert (Hf : fifo NewOrderController []).
    { split; [apply Forall_nil_2 | intros c; done]. }
    by destruct (fifo_run tr _ s [] inv_init Hf Hrun).
Qed.

(** ** The position of a VIP order *)

Lemma findInsertIndex_last s q i acc :
  (findInsertIndex s q i acc = acc ∧ Forall (is_class OrderTypeNormal s) q)
  ∨ ∃ j v, findInsertIndex s q i acc = i + j + 1 ∧ q !! j = Some v
           ∧ is_class OrderTypeVIP s v
           ∧ Forall (is_class OrderTypeNormal s) (drop (j + 1) q).
Proof.
  revert i acc. induction q as [|x q IH]; intros i acc; simpl.
  - left. split; [done | apply Forall_nil_2].
  - destruct (decide (Order.Type_ (order_at s x) = OrderTypeVIP)) as [Hx | Hx].
    + right. destruct (IH (S i) (i + 1)) as [[Hr Hall] | (j & v & Hr & Hj & Hv & Hall)].
      * exists 0, x. rewrite Hr. split; [lia|]. split; [done|]. split; [done|].
        simpl. by rewrite drop_0.
      * exists (S j), v. rewrite Hr. split; [lia|]. split; [done|].
        split; [done|]. done.
    + destruct (IH (S i) acc) as [[Hr Hall] | (j & v & Hr & Hj & Hv & Hall)].
      * left. split; [done|]. apply Forall_cons. split; [|done].
        unfold is_class, order_type.
        by destruct (Order.Type_ (order_at s x)).
      * right. exists (S j), v. rewrite Hr. split; [lia|]. split; [done|].
        split; [done|]. done.
Qed.

Lemma findInsertIndex_ext s s' q i acc :
  (∀ p, p ∈ q → order_type s' p = order_type s p) →
  findInsertIndex s' q i acc = findInsertIndex s q i acc.
Proof.
  revert i acc. induction q as [|x q IH]; intros i acc H; [done|]. simpl.
  assert (Hx : Order.Type_ (order_at s' x) = Order.Type_ (order_at s x))
    by (apply H, elem_of_cons; by left).
  rewrite Hx. apply IH. intros p Hp. apply H, elem_of_cons. by right.
Qed.

Lemma findInsertIndex_types s s' q q' i acc :
  map (order_type s') q' = map (order_type s) q →
  findInsertIndex s' q' i acc = findInsertIndex s q i acc.
Proof.
  revert q' i acc. induction q as [|x q IH]; intros [|x' q'] i acc H;
    try done. simpl in *. injection H as Hx Hq.
  unfold order_type in Hx. rewrite Hx. by apply IH.
Qed.

Lemma findInsertIndex_le s q i acc :
  acc ≤ i → findInsertIndex s q i acc ≤ i + length q.
Proof.
  revert i acc. induction q as [|x q IH]; intros i acc H; simpl; [lia|].
  case_decide.
  - etrans; [apply IH|]; lia.
  - etrans; [apply IH|]; lia.
Qed.

Lemma pendingOrders_insertVIPOrder order s :
  pendingOrders (insertVIPOrder order s)
  = insert_at (findInsertIndex s (pendingOrders s) 0 0) order (pendingOrders s).
Proof.
  unfold insertVIPOrder, insert_at. simpl. by rewrite <- (assoc_L (++)).
Qed.

Lemma splice_insertVIPOrder order s :
  Inlined.splice order s = insertVIPOrder order s.
Proof.
  unfold Inlined.splice, insertVIPOrder. case_decide as Hge.
  - rewrite take_ge, drop_ge by done. by rewrite app_nil_r.
  - by rewrite <- (assoc_L (++)).
Qed.

Lemma Inlined_CreateVIPOrder_eq now s :
  int64 (nextOrderID s) →
  Inlined.CreateVIPOrder now s = CreateVIPOrder now s.
Proof.
  intros Hid. unfold Inlined.CreateVIPOrder, CreateVIPOrder.
  rewrite (atomic_add_old _ Hid). unfold atomic_AddInt64, new_order. simpl.
  by rewrite splice_insertVIPOrder.
Qed.

Lemma Inlined_CreateNormalOrder_eq now s :
  int64 (nextOrderID s) →
  Inlined.CreateNormalOrder now s = CreateNormalOrder now s.
Proof.
  intros Hid. unfold Inlined.CreateNormalOrder, CreateNormalOrder.
  by rewrite (atomic_add_old _ Hid).
Qed.

Lemma Inlined_AddBot_eq now s :
  int64 (nextBotID s) → Inlined.AddBot now s = AddBot now s.
Proof.
  intros Hid. unfold Inlined.AddBot, AddBot.
  by rewrite (atomic_add_old _ Hid).
Qed.

(** ** A pass that finds nothing to do *)

Lemma assign_loop_noop now bs s :
  pendingOrders s = [] ∨ (∀ b, b ∈ bs → ¬ is_idle s b) →
  assign_loop now bs s = s.
Proof.
  intros H. induction bs as [|b bs IH]; [done|].
  rewrite assign_loop_cons, assign_bot_skip.
  - apply IH. destruct H as [? | H]; [by left | right].
    intros b' Hb'. apply H, elem_of_cons. by right.
  - intros [Hidle Hlen]. destruct H as [Hq | H].
    + rewrite Hq in Hlen. simpl in Hlen. lia.
    + apply (H b); [apply elem_of_cons; by left | done].
Qed.

Lemma assignOrdersToBots_noop now s :
  saturated s → assignOrdersToBots now s = s.
Proof. apply assign_loop_noop. Qed.

Lemma pendingOrders_queued_new ty now s :
  wf s →
  pendingOrders (queued_new ty now s)
  = insert_at (insertIndex s ty (pendingOrders s)) (length (orderMem s))
      (pendingOrders s).
Proof.
  intros Hwf. unfold queued_new.
  change (pendingOrders (Log ?m ?x)) with (pendingOrders x).
  unfold insertOrderToPending. rewrite order_at_alloc_new.
  cbn [Order.Type_]. destruct ty.
  - simpl. unfold insert_at. by rewrite take_ge, drop_ge.
  - rewrite pendingOrders_insertVIPOrder. cbn [insertIndex].
    change (pendingOrders (alloc_order OrderTypeVIP now s))
      with (pendingOrders s). f_equal.
    apply findInsertIndex_ext. intros p Hp. unfold order_type.
    rewrite order_at_alloc; [done|].
    destruct Hwf. rewrite Forall_forall in wf_pending0. by apply wf_pending0.
Qed.

Lemma queued_new_frame ty now s :
  bots (queued_new ty now s) = bots s
  ∧ botMem (queued_new ty now s) = botMem s
  ∧ completedOrders (queued_new ty now s) = completedOrders s
  ∧ routines (queued_new ty now s) = routines s
  ∧ nextBotID (queued_new ty now s) = nextBotID s.
Proof.
  unfold queued_new.
  destruct (insertOrderToPending_frame (length (orderMem s))
              (alloc_order ty now s))
    as (_ & _ & Hc & Hb & _ & Hbi & _ & Hbm & Hr).
  change (bots (Log ?m ?x)) with (bots x).
  change (botMem (Log ?m ?x)) with (botMem x).
  change (completedOrders (Log ?m ?x)) with (completedOrders x).
  change (routines (Log ?m ?x)) with (routines x).
  change (nextBotID (Log ?m ?x)) with (nextBotID x).
  rewrite Hc, Hb, Hbi, Hbm, Hr. done.
Qed.

Lemma insertIndex_partitioned s vs ns :
  Forall (is_class OrderTypeVIP s) vs →
  Forall (is_class OrderTypeNormal s) ns →
  findInsertIndex s (vs ++ ns) 0 0 = length vs.
Proof.
  intros Hv Hn. rewrite findInsertIndex_partitioned by done. by destruct vs.
Qed.

(** C3.  In a state of a run, [CreateVIPOrder] builds a pending VIP order
    with the next id and puts it into the queue at the index just behind the
    last VIP order (index 0 when the queue has none), which is behind every
    VIP order and before every Normal order; when no bot of the pool is idle
    this is the queue the call leaves.  The revision with the inlined body
    computes the same state.  Creating Normal, Normal, VIP, Normal with no
    bots leaves the queue [1003 VIP; 1001 Normal; 1002 Normal; 1004 Normal]. *)
Theorem CreateVIPOrder_position (tr : list event) (s : State) (now : Time) :
  run tr NewOrderController = Some s →
  let q := pendingOrders s in
  let i := findInsertIndex s q 0 0 in
  let p := length (orderMem s) in
  ((i = 0 ∧ Forall (is_class OrderTypeNormal s) q)
   ∨ ∃ j v, i = j + 1 ∧ q !! j = Some v ∧ is_class OrderTypeVIP s v
            ∧ Forall (is_class OrderTypeNormal s) (drop (j + 1) q))
  ∧ Forall (is_class OrderTypeVIP s) (take i q)
  ∧ Forall (is_class OrderTypeNormal s) (drop i q)
  ∧ CreateVIPOrder now s = assignOrdersToBots now (queued_new OrderTypeVIP now s)
  ∧ pendingOrders (queued_new OrderTypeVIP now s) = take i q ++ p :: drop i q
  ∧ order_at (queued_new OrderTypeVIP now s) p
    = Order.mk (nextOrderID s) OrderTypeVIP OrderStatusPending 0%Z now 0%Z 0%Z
  ∧ ((∀ b, b ∈ bots s → ¬ is_idle s b) →
     pendingOrders (CreateVIPOrder now s) = take i q ++ p :: drop i q)
  ∧ Inlined.CreateVIPOrder now s = CreateVIPOrder now s
  ∧ (λ sE, queue_view sE (pendingOrders sE))
      <$> run scenario_E NewOrderController
    = Some [(1003%Z, OrderTypeVIP); (1001%Z, OrderTypeNormal);
            (1002%Z, OrderTypeNormal); (1004%Z, OrderTypeNormal)].
Proof.
  intros Hrun q i p. destruct (run_init_inv tr s Hrun) as [Hwf Hsat].
  assert (Hqueue : pendingOrders (queued_new OrderTypeVIP now s)
                   = take i q ++ p :: drop i q)
    by apply (pendingOrders_queued_new OrderTypeVIP now s Hwf).
  split.
  { destruct (findInsertIndex_last s q 0 0) as [[Hr Hall] | (j & v & Hr & H)].
    - left. by split.
    - right. exists j, v. split; [exact Hr | exact H]. }
  destruct (wf_partitioned s Hwf) as (vs & ns & Hq & Hv & Hn).
  assert (Hi : i = length vs).
  { unfold i, q. rewrite Hq. by apply insertIndex_partitioned. }
  split; [unfold q; rewrite Hq, Hi; by rewrite take_app_length|].
  split; [unfold q; rewrite Hq, Hi; by rewrite drop_app_length|].
  split; [apply CreateVIPOrder_queued|].
  split; [exact Hqueue|].
  split.
  { unfold queued_new.
    destruct (insertOrderToPending_frame p (alloc_order OrderTypeVIP now s))
      as (_ & _ & _ & _ & _ & _ & Hom & _ & _).
    unfold order_at at 1. change (orderMem (Log ?m ?x)) with (orderMem x).
    fold p. rewrite Hom. fold (order_at (alloc_order OrderTypeVIP now s) p).
    unfold p. rewrite order_at_alloc_new.
    by rewrite (atomic_add_old _ (wf_orderID s Hwf)). }
  split.
  { intros Hbusy. rewrite CreateVIPOrder_queued.
    rewrite assignOrdersToBots_noop; [exact Hqueue|].
    destruct (queued_new_frame OrderTypeVIP now s) as (Hb & Hbm & _).
    right. rewrite Hb. intros b Hin. unfold is_idle, bot_at. rewrite Hbm.
    by apply Hbusy. }
  split; [apply Inlined_CreateVIPOrder_eq, (wf_orderID s Hwf)|].
  reflexivity.
Qed.

Lemma CreateVIPOrder_position_witness :
  ∃ s, run [ECreateVIPOrder 0; ECreateNormalOrder 1] NewOrderController = Some s
       ∧ pendingOrders (queued_new OrderTypeVIP 2 s) = [0; 2; 1].
Proof.
  eexists. split; [vm_compute; reflexivity|].
  refine (proj1 (proj2 (proj2 (proj2 (proj2
    (CreateVIPOrder_position [ECreateVIPOrder 0; ECreateNormalOrder 1] _ 2%Z _)))))).
  vm_compute; reflexivity.
Defined.

Lemma pending_queue_partitioned_fifo_witness :
  ∃ s, run [ECreateNormalOrder 0; ECreateVIPOrder 1; EAddBot 2; ERemoveBot 3;
            ECreateVIPOrder 4] NewOrderController = Some s
       ∧ partitioned s (pendingOrders s).
Proof.
  eexists. split; [vm_compute; reflexivity|].
  refine (proj1 (pending_queue_partitioned_fifo
    [ECreateNormalOrder 0; ECreateVIPOrder 1; EAddBot 2; ERemoveBot 3;
     ECreateVIPOrder 4] _ _)).
  vm_compute; reflexivity.
Defined.

(** ** What a pass assigns *)

Lemma filter_ext_in {A} (P Q : A → Prop) `{!∀ x, Decision (P x)}
    `{!∀ x, Decision (Q x)} (l : list A) :
  (∀ x, x ∈ l → P x ↔ Q x) → filter P l = filter Q l.
Proof.
  induction l as [|x l IH]; intros Hext; [done|].
  assert (Hx : P x ↔ Q x) by (apply Hext, elem_of_cons; by left).
  assert (IH' : filter P l = filter Q l)
    by (apply IH; intros y Hy; apply Hext, elem_of_cons; by right).
  rewrite !filter_cons, IH'.
  destruct (decide (P x)), (decide (Q x)); naive_solver.
Qed.

Lemma zip_with_ext_all {A B C} (f g : A → B → C) (l : list A) (k : list B) :
  (∀ x y, f x y = g x y) → zip_with f l k = zip_with g l k.
Proof.
  intros H. revert k. induction l as [|x l IH]; intros [|y k]; simpl; try done.
  by rewrite H, IH.
Qed.

Lemma picked_msg_picked now bot order rest s b o :
  picked_msg (picked now bot order rest s) b o = picked_msg s b o.
Proof.
  destruct (extends_picked now bot order rest s) as [_ _ Ho Hb].
  unfold picked_msg. rewrite bot_at_picked, order_at_picked.
  repeat case_ptr; done.
Qed.

Lemma assign_loop_exact now bs s idle q k :
  Forall (λ p, p < length (orderMem s)) (pendingOrders s) →
  NoDup (pendingOrders s) →
  Forall (λ b, b < length (botMem s)) bs → NoDup bs →
  idle = filter (is_idle s) bs → q = pendingOrders s →
  k = min (length idle) (length q) →
  pendingOrders (assign_loop now bs s) = drop k q
  ∧ (∀ i bot order, idle !! i = Some bot → q !! i = Some order →
       bot_at (assign_loop now bs s) bot
       = Bot.mk (Bot.ID (bot_at s bot)) BotStatusProcessing (Some order)
           (Bot.stopChan (bot_at s bot))
       ∧ order_at (assign_loop now bs s) order
         = Order.mk (Order.ID (order_at s order)) (Order.Type_ (order_at s order))
             OrderStatusProcessing (Bot.ID (bot_at s bot))
             (Order.Created (order_at s order)) now
             (Order.Completed (order_at s order)))
  ∧ (∀ b, b ∉ take k idle → bot_at (assign_loop now bs s) b = bot_at s b)
  ∧ (∀ o, o ∉ take k q → order_at (assign_loop now bs s) o = order_at s o)
  ∧ routines (assign_loop now bs s)
    = routines s ++ map (started now) (take k idle)
  ∧ logger (assign_loop now bs s)
    = logger s ++ zip_with (picked_msg s) idle q.
Proof.
  revert s idle q k. induction bs as [|b0 bs IH];
    intros s idle q k Hval Hndq Hvalb Hnd -> -> ->.
  { simpl. rewrite drop_0, !app_nil_r.
    repeat split; try done; intros i bot order Hi; done. }
  apply NoDup_cons in Hnd as [Hb0 Hnd].
  apply Forall_cons_1 in Hvalb as [Hbot0 Hvalb].
  rewrite assign_loop_cons.
  destruct (assign_bot_cases now s b0)
    as [[-> Hno] | (o0 & rest & Hidle & Hq & ->)].
  - destruct (decide (is_idle s b0)) as [Hidle | Hbusy].
    + assert (Hq : pendingOrders s = []).
      { destruct (pendingOrders s); [done|]. exfalso. apply Hno.
        split; [done | simpl; lia]. }
      destruct (IH s _ _ _ Hval Hndq Hvalb Hnd eq_refl eq_refl eq_refl)
        as (H1 & H2 & H3 & H4 & H5 & H6).
      rewrite Hq in *. simpl in *.
      rewrite Nat.min_0_r in *. rewrite take_0 in *.
      rewrite zip_with_nil_r in *.
      repeat split; try done; intros i bot order _ Hi; done.
    + rewrite filter_cons_False by done.
      by apply IH.
  - rewrite filter_cons_True by done.
    rewrite Hq in Hval, Hndq.
    apply Forall_cons_1 in Hval as [Ho0 Hval].
    apply NoDup_cons in Hndq as [Hfresh Hndq].
    assert (Hidle' : filter (is_idle (picked now b0 o0 rest s)) bs
                     = filter (is_idle s) bs).
    { apply filter_ext_in. intros b Hb. rewrite is_idle_picked by done.
      split; [naive_solver|]. intros Hi. split; [|done]. by intros <-. }
    assert (Hval1 : Forall (λ p, p < length (orderMem (picked now b0 o0 rest s)))
                      (pendingOrders (picked now b0 o0 rest s))).
    { unfold picked; simpl. by rewrite length_insert. }
    assert (Hvalb1 : Forall (λ b, b < length (botMem (picked now b0 o0 rest s)))
                       bs).
    { unfold picked; simpl. by rewrite length_insert. }
    destruct (IH (picked now b0 o0 rest s) _ _ _ Hval1 Hndq Hvalb1 Hnd
                eq_refl eq_refl eq_refl) as (H1 & H2 & H3 & H4 & H5 & H6).
    rewrite Hidle' in *.
    change (pendingOrders (picked now b0 o0 rest s)) with rest in *.
    rewrite Hq. simpl.
    set (idle' := filter (is_idle s) bs) in *.
    set (k' := min (length idle') (length rest)) in *.
    assert (Hidle_sub : ∀ b, b ∈ idle' → b ∈ bs).
    { intros b Hb. by apply list_elem_of_filter in Hb as [_ ?]. }
    assert (Htake : ∀ {A} (l : list A) n x, x ∈ take n l → x ∈ l).
    { intros A l n x Hx. rewrite <- (take_drop n l). apply elem_of_app. by left. }
    split; [exact H1|]. split; [|split; [|split; [|split]]].
    + intros [|i] bot order Hi Ho; simpl in Hi, Ho.
      * injection Hi as <-. injection Ho as <-.
        rewrite H3 by (intros Hin; by apply Hb0, Hidle_sub, (Htake _ idle' k')).
        rewrite H4 by (intros Hin; by apply Hfresh, (Htake _ rest k')).
        rewrite bot_at_picked, order_at_picked.
        rewrite !decide_True by done. done.
      * destruct (H2 i bot order Hi Ho) as [Hb Ho'].
        assert (Hne : b0 ≠ bot).
        { intros ->. apply Hb0, Hidle_sub. by eapply list_elem_of_lookup_2. }
        assert (Hne' : o0 ≠ order).
        { intros ->. apply Hfresh. by eapply list_elem_of_lookup_2. }
        rewrite Hb, Ho'. rewrite bot_at_picked, order_at_picked.
        rewrite !decide_False by naive_solver. done.
    + intros b Hb. apply not_elem_of_cons in Hb as [Hne Hb].
      rewrite H3 by done. rewrite bot_at_picked.
      by rewrite decide_False by naive_solver.
    + intros o Ho. apply not_elem_of_cons in Ho as [Hne Ho].
      rewrite H4 by done. rewrite order_at_picked.
      by rewrite decide_False by naive_solver.
    + rewrite H5. unfold picked; simpl. by rewrite <- (assoc_L (++)).
    + rewrite H6. unfold picked at 1; simpl. rewrite <- (assoc_L (++)).
      simpl. do 2 f_equal. apply zip_with_ext_all.
      intros; apply picked_msg_picked.
Qed.


(** From a state whose queue and pool hold valid, distinct addresses
    (every state of a run and every state in which a method reaches its
    pass is one), a call of [assignOrdersToBots] at instant [now] hands the
    first [k] orders of the queue, in queue order, to the first [k] idle
    bots of the pool, in pool order, [k] being the smaller of the two
    counts: the queue loses its first [k] orders; the [i]-th idle bot becomes
    Processing and holds the [i]-th order; that order becomes Processing,
    carries the bot's id and has [Started = now]; a goroutine is started for
    each of these bots and a line is logged for each; every other bot and
    order, the pool, [oc.orders] and the completed orders stay as they
    are. *)
Theorem assignOrdersToBots_first_k (s : State) (now : Time) :
  pass_ready s →
  pendingOrders (assignOrdersToBots now s)
  = drop (assigned s) (pendingOrders s)
  ∧ (∀ i bot order,
       idle_bots s !! i = Some bot → pendingOrders s !! i = Some order →
       bot_at (assignOrdersToBots now s) bot
       = Bot.mk (Bot.ID (bot_at s bot)) BotStatusProcessing (Some order)
           (Bot.stopChan (bot_at s bot))
       ∧ order_at (assignOrdersToBots now s) order
         = Order.mk (Order.ID (order_at s order))
             (Order.Type_ (order_at s order)) OrderStatusProcessing
             (Bot.ID (bot_at s bot)) (Order.Created (order_at s order)) now
             (Order.Completed (order_at s order)))
  ∧ (∀ b, b ∉ take (assigned s) (idle_bots s) →
       bot_at (assignOrdersToBots now s) b = bot_at s b)
  ∧ (∀ o, o ∉ take (assigned s) (pendingOrders s) →
       order_at (assignOrdersToBots now s) o = order_at s o)
  ∧ routines (assignOrdersToBots now s)
    = routines s ++ map (started now) (take (assigned s) (idle_bots s))
  ∧ logger (assignOrdersToBots now s)
    = logger s ++ zip_with (picked_msg s) (idle_bots s) (pendingOrders s)
  ∧ bots (assignOrdersToBots now s) = bots s
  ∧ orders (assignOrdersToBots now s) = orders s
  ∧ completedOrders (assignOrdersToBots now s) = completedOrders s.
Proof.
  intros (Hval & Hndq & Hvalb & Hnd).
  destruct (assign_loop_exact now (bots s) s _ _ _ Hval Hndq Hvalb Hnd
              eq_refl eq_refl eq_refl)
    as (H1 & H2 & H3 & H4 & H5 & H6).
  destruct (assign_loop_passes now (bots s) s).
  split; [exact H1|]. split; [exact H2|]. split; [exact H3|].
  split; [exact H4|]. split; [exact H5|]. split; [exact H6|]. done.
Qed.

Lemma assignOrdersToBots_first_k_witness :
  pass_ready sample_kitchen
  ∧ pendingOrders (assignOrdersToBots 7 sample_kitchen)
    = drop (assigned sample_kitchen) (pendingOrders sample_kitchen).
Proof.
  assert (H : pass_ready sample_kitchen)
    by (apply (bool_decide_unpack (pass_ready sample_kitchen));
        vm_compute; exact I).
  split; [exact H|].
  exact (proj1 (assignOrdersToBots_first_k sample_kitchen 7%Z H)).
Defined.

(** ** Idempotence of the pass *)

Lemma assign_loop_saturates now bs s :
  Forall (λ b, b < length (botMem s)) bs →
  pendingOrders (assign_loop now bs s) = []
  ∨ ∀ b, b ∈ bs → ¬ is_idle (assign_loop now bs s) b.
Proof.
  revert s. induction bs as [|b0 bs IH]; intros s Hval.
  { right. intros b Hb. by apply elem_of_nil in Hb. }
  apply Forall_cons_1 in Hval as [Hb0 Hval]. rewrite assign_loop_cons.
  assert (Hp1 := assign_bot_passes now s b0).
  assert (Hp2 := assign_loop_passes now bs (assign_bot now s b0)).
  destruct (IH (assign_bot now s b0)) as [Hempty | Hbusy].
  { destruct Hp1. by rewrite pass_botMem0. }
  { by left. }
  destruct (assign_bot_cases now s b0)
    as [[Heq Hno] | (o0 & rest & Hidle & Hq & Heq)].
  - rewrite Heq in *. destruct (decide (is_idle s b0)) as [Hidle | Hb].
    + left. assert (Hq : pendingOrders s = []).
      { destruct (pendingOrders s); [done|]. exfalso. apply Hno.
        split; [done | simpl; lia]. }
      destruct Hp2. destruct pass_pending0 as [k Hk].
      by rewrite Hk, Hq, drop_nil.
    + right. intros b [-> | Hin]%elem_of_cons; [|by apply Hbusy].
      unfold is_idle. destruct Hp2. by rewrite pass_busy0.
  - right. intros b [-> | Hin]%elem_of_cons; [|by apply Hbusy].
    assert (Hb : ¬ is_idle (assign_bot now s b0) b0).
    { rewrite Heq, is_idle_picked by done. naive_solver. }
    unfold is_idle. destruct Hp2. by rewrite pass_busy0.
Qed.

(** From a state whose pool holds addresses of existing bots, the pass
    changes nothing when no order is pending or no bot of the pool is idle;
    a second pass right after a first one returns the state of the first,
    whatever the instants of the two calls; and after a pass no bot of the
    pool is idle unless the queue is empty. *)
Theorem assignOrdersToBots_idempotent (s : State) (now now' : Time) :
  Forall (λ b, b < length (botMem s)) (bots s) →
  (saturated s → assignOrdersToBots now s = s)
  ∧ assignOrdersToBots now' (assignOrdersToBots now s)
    = assignOrdersToBots now s
  ∧ saturated (assignOrdersToBots now s).
Proof.
  intros Hval.
  assert (Hsat : saturated (assignOrdersToBots now s)).
  { unfold saturated. destruct (assign_loop_passes now (bots s) s).
    change (bots (assignOrdersToBots now s)) with
      (bots (assign_loop now (bots s) s)).
    rewrite pass_bots0. by apply assign_loop_saturates. }
  split; [apply assignOrdersToBots_noop|].
  split; [by apply assignOrdersToBots_noop | exact Hsat].
Qed.

Lemma assignOrdersToBots_idempotent_witness :
  Forall (λ b, b < length (botMem sample_kitchen)) (bots sample_kitchen)
  ∧ assignOrdersToBots 8 (assignOrdersToBots 7 sample_kitchen)
    = assignOrdersToBots 7 sample_kitchen.
Proof.
  assert (H : Forall (λ b, b < length (botMem sample_kitchen))
                (bots sample_kitchen))
    by (apply (bool_decide_unpack
                 (Forall (λ b, b < length (botMem sample_kitchen))
                    (bots sample_kitchen)));
        vm_compute; exact I).
  split; [exact H|].
  exact (proj1 (proj2 (assignOrdersToBots_idempotent sample_kitchen 7%Z 8%Z H))).
Defined.

(** * Further properties of the controller *)

(** ** The steps, case by case *)

Lemma step_shape e s s' : wf s → step e s = Some s' → shape s e s'.
Proof.
  intros Hwf Hstep. destruct e as [now|now|now|now|now|g c now];
    simpl in Hstep.
  - injection Hstep as <-. rewrite CreateNormalOrder_queued. constructor.
  - injection Hstep as <-. rewrite CreateVIPOrder_queued. constructor.
  - injection Hstep as <-. rewrite AddBot_pooled. constructor.
  - destruct (RemoveBot_cases now s Hwf)
      as [[Hnil Heq] | [(bs & bot & Hbs & _ & Hsl & Heq)
                       | (bs & bot & order & Hbs & Hst & Hsl & Heq)]];
      rewrite Heq in Hstep; injection Hstep as <-.
    + by constructor.
    + by constructor.
    + by constructor.
  - injection Hstep as <-. constructor.
  - destruct (processOrder_cases g c now s s' Hstep)
      as (r & Hg & Hr & [(-> & v & ch & Hch & ->)
                        | [(-> & Ht & ->)
                          | [(-> & Ht & Hsl & ->)
                            | (-> & Ht & order & Hsl & ->)]]]).
    + by econstructor.
    + by econstructor.
    + by econstructor.
    + by econstructor.
Qed.

(** ** The books *)

Lemma same_books_refl s : same_books s s.
Proof. by constructor. Qed.

Lemma same_books_trans s1 s2 s3 :
  same_books s1 s2 → same_books s2 s3 → same_books s1 s3.
Proof.
  intros [] []. constructor; try congruence. by etrans.
Qed.

Lemma same_books_pass now s : same_books s (assignOrdersToBots now s).
Proof.
  destruct (assign_loop_passes now (bots s) s).
  constructor; try done.
  change (bots (assignOrdersToBots now s)) with (bots (assign_loop now (bots s) s)).
  by rewrite pass_bots0.
Qed.

Lemma extends_pass now s : extends s (assignOrdersToBots now s).
Proof.
  unfold assignOrdersToBots. generalize (bots s). intros bs. revert s.
  induction bs as [|b bs IH]; intros s; [apply extends_refl|].
  simpl. eapply extends_trans; [|apply IH].
  destruct (assign_bot_cases now s b)
    as [[-> _] | (order & rest & _ & _ & ->)];
    [apply extends_refl | apply extends_picked].
Qed.

Lemma same_books_requeued bs bot order s :
  bs `prefix_of` bots s →
  same_books s (requeued bot order (stopped bot order (set_bots bs s))).
Proof.
  intros Hbs. unfold requeued.
  destruct (insertOrderToPending_frame order (stopped bot order (set_bots bs s)))
    as (_ & Ho & _ & Hb & Hoi & Hbi & Hom & Hbm & _).
  constructor;
    change (orders (Log ?m ?x)) with (orders x);
    change (nextOrderID (Log ?m ?x)) with (nextOrderID x);
    change (nextBotID (Log ?m ?x)) with (nextBotID x);
    change (orderMem (Log ?m ?x)) with (orderMem x);
    change (botMem (Log ?m ?x)) with (botMem x);
    change (bots (Log ?m ?x)) with (bots x);
    rewrite ?Ho, ?Hb, ?Hoi, ?Hbi, ?Hom, ?Hbm; try done.
  - unfold stopped; simpl. by rewrite length_insert.
  - unfold stopped; simpl. by rewrite length_insert.
Qed.

Lemma same_books_finalize now bot order s :
  same_books s (finalizeOrderCompletion now bot order s).
Proof.
  rewrite finalizeOrderCompletion_reported. simpl.
  assert (H : same_books s (assignOrdersToBots now (reported bot order s))).
  { eapply same_books_trans; [|apply same_books_pass]. by constructor. }
  destruct (bool_decide _); [done|].
  eapply same_books_trans; [exact H | by constructor].
Qed.

Lemma extends_finalize now bot order s :
  extends s (finalizeOrderCompletion now bot order s).
Proof.
  rewrite finalizeOrderCompletion_reported. simpl.
  assert (H : extends s (assignOrdersToBots now (reported bot order s))).
  { eapply extends_trans; [apply extends_reported | apply extends_pass]. }
  destruct (bool_decide _); [done|].
  eapply extends_trans; [exact H | apply extends_Log].
Qed.

Lemma same_books_completed now bot order s :
  same_books s (completed now bot order s).
Proof.
  constructor; try done; unfold completed; simpl; by rewrite length_insert.
Qed.

Lemma ledger_keep s s' :
  ledger s → extends s s' → same_books s s' → ledger s'.
Proof.
  intros [H1 H2 H3 H4 H5 H6] [_ _ Ho Hb] [G1 G2 G3 G4 G5 G6].
  constructor.
  - by rewrite G1, G4.
  - by rewrite G2, G4.
  - rewrite G4. intros p Hp. destruct (Ho p Hp) as (-> & _). by apply H3.
  - by rewrite G3, G5.
  - rewrite G5. intros b Hlt. rewrite (Hb b Hlt). by apply H5.
  - intros i j b b' Hij Hi Hj. apply (H6 i j); [done| |].
    + by eapply prefix_lookup_Some.
    + by eapply prefix_lookup_Some.
Qed.

Lemma wrap64_succ z : wrap64 (wrap64 z + 1) = wrap64 (z + 1).
Proof.
  unfold wrap64.
  replace ((z + 2 ^ 63) `mod` 2 ^ 64 - 2 ^ 63 + 1 + 2 ^ 63)%Z
    with ((z + 2 ^ 63) `mod` 2 ^ 64 + 1)%Z by lia.
  replace (z + 1 + 2 ^ 63)%Z with ((z + 2 ^ 63) + 1)%Z by lia.
  by rewrite Zplus_mod_idemp_l.
Qed.

Lemma ledger_queued_new ty now s : wf s → ledger s → ledger (queued_new ty now s).
Proof.
  intros Hwf [H1 H2 H3 H4 H5 H6].
  destruct (queued_new_frame ty now s) as (Hb & Hbm & _ & _ & Hbi).
  assert (Hom : orderMem (queued_new ty now s)
                = orderMem s ++ [Order.mk (wrap64 (atomic_AddInt64 (nextOrderID s) 1 - 1))
                                   ty OrderStatusPending 0%Z now 0%Z 0%Z]).
  { unfold queued_new.
    destruct (insertOrderToPending_frame (length (orderMem s))
                (alloc_order ty now s)) as (_ & _ & _ & _ & _ & _ & Hom & _).
    change (orderMem (Log ?m ?x)) with (orderMem x). by rewrite Hom. }
  assert (Hor : orders (queued_new ty now s) = orders s ++ [length (orderMem s)]).
  { unfold queued_new.
    destruct (insertOrderToPending_frame (length (orderMem s))
                (alloc_order ty now s)) as (_ & Hor & _).
    change (orders (Log ?m ?x)) with (orders x). by rewrite Hor. }
  assert (Hno : nextOrderID (queued_new ty now s)
                = atomic_AddInt64 (nextOrderID s) 1).
  { unfold queued_new.
    destruct (insertOrderToPending_frame (length (orderMem s))
                (alloc_order ty now s)) as (_ & _ & _ & _ & Hno & _).
    change (nextOrderID (Log ?m ?x)) with (nextOrderID x). by rewrite Hno. }
  constructor.
  - rewrite Hor, Hom, H1, length_app. simpl.
    by rewrite Nat.add_1_r, seq_S.
  - rewrite Hno, Hom, length_app. simpl. unfold atomic_AddInt64.
    rewrite H2, wrap64_succ. f_equal. lia.
  - rewrite Hom, length_app. simpl. intros p Hp. unfold order_at. rewrite Hom.
    destruct (decide (p = length (orderMem s))) as [-> | Hne].
    + rewrite list_lookup_total_middle by done. simpl.
      rewrite (atomic_add_old _ (wf_orderID s Hwf)). exact H2.
    + rewrite lookup_total_app_l by lia. apply H3. lia.
  - rewrite Hbi, Hbm. exact H4.
  - rewrite Hbm. intros b Hlt. unfold bot_at. rewrite Hbm. by apply H5.
  - rewrite Hb. exact H6.
Qed.

Lemma ledger_pooled_new s : wf s → ledger s → ledger (pooled_new s).
Proof.
  intros Hwf [H1 H2 H3 H4 H5 H6]. constructor.
  - exact H1.
  - exact H2.
  - exact H3.
  - change (atomic_AddInt64 (nextBotID s) 1
            = wrap64 (1 + Z.of_nat (length (botMem s ++
                [Bot.mk (wrap64 (atomic_AddInt64 (nextBotID s) 1 - 1))
                   BotStatusIdle None []])))).
    rewrite length_app. simpl. unfold atomic_AddInt64.
    rewrite H4, wrap64_succ. f_equal. lia.
  - change (∀ b, b < length (botMem s ++
                [Bot.mk (wrap64 (atomic_AddInt64 (nextBotID s) 1 - 1))
                   BotStatusIdle None []]) →
            Bot.ID (bot_at (pooled_new s) b) = wrap64 (1 + Z.of_nat b)).
    rewrite length_app. simpl. intros b Hlt.
    destruct (decide (b = length (botMem s))) as [-> | Hne].
    + rewrite bot_at_pooled_new. simpl.
      rewrite (atomic_add_old _ (wf_botID s Hwf)). exact H4.
    + rewrite bot_at_pooled by lia. apply H5. lia.
  - change (∀ i j b b', i < j →
            (bots s ++ [length (botMem s)]) !! i = Some b →
            (bots s ++ [length (botMem s)]) !! j = Some b' → b < b').
    intros i j b b' Hij Hi Hj.
    assert (Hvalid : ∀ k x, bots s !! k = Some x → x < length (botMem s)).
    { intros k x Hk. destruct Hwf. rewrite Forall_forall in wf_bots0.
      apply wf_bots0. by eapply list_elem_of_lookup_2. }
    apply lookup_app_Some in Hi as [Hi | [Hge Hi]];
      apply lookup_app_Some in Hj as [Hj | [Hge' Hj]].
    + by apply (H6 i j).
    + apply list_lookup_singleton_Some in Hj as [_ <-]. by eapply Hvalid.
    + apply lookup_lt_Some in Hj. lia.
    + apply list_lookup_singleton_Some in Hi as [Hi _].
      apply list_lookup_singleton_Some in Hj as [Hj _]. lia.
Qed.

Lemma ledger_init : ledger NewOrderController.
Proof.
  constructor; try done; simpl; intros; lia.
Qed.

Lemma step_ledger e s s' : wf s → ledger s → step e s = Some s' → ledger s'.
Proof.
  intros Hwf Hled Hstep.
  destruct (step_shape e s s' Hwf Hstep).
  - eapply ledger_keep; [by apply ledger_queued_new | apply extends_pass
                        | apply same_books_pass].
  - eapply ledger_keep; [by apply ledger_queued_new | apply extends_pass
                        | apply same_books_pass].
  - eapply ledger_keep; [by apply ledger_pooled_new | apply extends_pass
                        | apply same_books_pass].
  - done.
  - eapply ledger_keep; [| apply extends_pass | apply same_books_pass].
    eapply ledger_keep; [exact Hled | by constructor|].
    constructor; try done. simpl. rewrite H. by apply prefix_app_r.
  - eapply ledger_keep; [| apply extends_pass | apply same_books_pass].
    eapply ledger_keep; [exact Hled | |].
    + eapply extends_trans; [apply (extends_set_bots bs)|].
      eapply extends_trans; [apply (extends_stopped bot order)|].
      apply extends_requeued.
    + apply same_books_requeued. rewrite H. by apply prefix_app_r.
  - eapply ledger_keep; [exact Hled | apply extends_pass | apply same_books_pass].
  - eapply ledger_keep; [exact Hled | |].
    + constructor; try done.
      * unfold retire, set_routine, store_bot; simpl. by rewrite length_insert.
      * intros b _. unfold retire, set_routine.
        change (bot_at (set_routines ?x ?y) b) with (bot_at y b).
        rewrite bot_at_store. case_ptr; done.
    + constructor; try done.
      unfold retire, set_routine, store_bot; simpl. by rewrite length_insert.
  - done.
  - eapply ledger_keep; [exact Hled | apply extends_retire | by constructor].
  - eapply ledger_keep; [| apply extends_finalize | apply same_books_finalize].
    eapply ledger_keep; [| apply extends_completed | apply same_books_completed].
    eapply ledger_keep; [exact Hled | apply extends_retire | by constructor].
Qed.

Lemma run_ledger tr s s' :
  inv s → ledger s → run tr s = Some s' → ledger s'.
Proof.
  revert s. induction tr as [|e tr IH]; intros s Hinv Hled Hrun;
    simpl in Hrun.
  - by injection Hrun as <-.
  - destruct (step e s) as [s1|] eqn:Hstep; [|done]. simpl in Hrun.
    apply (IH s1); [by destruct (step_inv e s s1 Hinv Hstep) | | done].
    eapply step_ledger; [by destruct Hinv | done | done].
Qed.

Lemma run_init_ledger tr s : run tr NewOrderController = Some s → ledger s.
Proof. apply run_ledger; [apply inv_init | apply ledger_init]. Qed.

(** X1.  In every state of a run, [oc.orders] holds every order ever created, in
    the order of creation, the [i]-th of them with id [1001 + i] in [int64]
    arithmetic, and [nextOrderID] is the id the next order gets; as long as
    at most [2^63 - 1001] orders exist the ids are the numbers [1001 + i]
    themselves, so they grow strictly along [oc.orders]. *)
Theorem order_ids_count_up (tr : list event) (s : State) :
  run tr NewOrderController = Some s →
  length (orders s) = length (orderMem s)
  ∧ nextOrderID s = wrap64 (1001 + Z.of_nat (length (orders s)))
  ∧ (∀ i p, orders s !! i = Some p →
       p = i ∧ Order.ID (order_at s p) = wrap64 (1001 + Z.of_nat i))
  ∧ ((Z.of_nat (length (orders s)) ≤ 2 ^ 63 - 1001)%Z →
     ∀ i j p q, i < j → orders s !! i = Some p → orders s !! j = Some q →
       Order.ID (order_at s p) = (1001 + Z.of_nat i)%Z
       ∧ (Order.ID (order_at s p) < Order.ID (order_at s q))%Z).
Proof.
  intros Hrun. destruct (run_init_ledger tr s Hrun) as [H1 H2 H3 _ _ _].
  assert (Hlen : length (orders s) = length (orderMem s))
    by (by rewrite H1, length_seq).
  assert (Hlook : ∀ i p, orders s !! i = Some p →
                    p = i ∧ i < length (orderMem s)).
  { intros i p Hi. rewrite H1 in Hi. apply lookup_seq in Hi. lia. }
  split; [exact Hlen|]. split; [by rewrite Hlen|]. split.
  - intros i p Hi. destruct (Hlook i p Hi) as [-> Hlt]. split; [done|].
    by apply H3.
  - intros Hbound i j p q Hij Hi Hj.
    destruct (Hlook i p Hi) as [-> Hlti], (Hlook j q Hj) as [-> Hltj].
    rewrite (H3 i Hlti), (H3 j Hltj).
    rewrite !wrap64_id by (unfold int64; lia). lia.
Qed.

Lemma order_ids_count_up_witness :
  ∃ s, run [ECreateNormalOrder 0; ECreateVIPOrder 1; EAddBot 2]
         NewOrderController = Some s
       ∧ nextOrderID s = wrap64 (1001 + Z.of_nat (length (orders s))).
Proof.
  eexists. split; [vm_compute; reflexivity|].
  refine (proj1 (proj2 (order_ids_count_up
    [ECreateNormalOrder 0; ECreateVIPOrder 1; EAddBot 2] _ _))).
  vm_compute; reflexivity.
Defined.

(** X2.  In every state of a run the [i]-th bot ever created has id [1 + i] in
    [int64] arithmetic and [nextBotID] is the id the next bot gets; as long
    as fewer than [2^63 - 1] bots were created the ids are the numbers
    [1 + i] themselves, and they grow strictly along the pool: the pool
    lists its bots oldest first and its last bot has the highest id. *)
Theorem bot_ids_count_up (tr : list event) (s : State) :
  run tr NewOrderController = Some s →
  nextBotID s = wrap64 (1 + Z.of_nat (length (botMem s)))
  ∧ (∀ b, b < length (botMem s) →
       Bot.ID (bot_at s b) = wrap64 (1 + Z.of_nat b))
  ∧ (∀ i j b b', i < j → bots s !! i = Some b → bots s !! j = Some b' →
       b < b' < length (botMem s))
  ∧ ((Z.of_nat (length (botMem s)) < 2 ^ 63 - 1)%Z →
     ∀ i j b b', i < j → bots s !! i = Some b → bots s !! j = Some b' →
       (1 ≤ Bot.ID (bot_at s b) < Bot.ID (bot_at s b'))%Z).
Proof.
  intros Hrun. destruct (run_init_ledger tr s Hrun) as [_ _ _ H4 H5 H6].
  destruct (run_init_inv tr s Hrun) as [Hwf _].
  assert (Hvalid : ∀ k x, bots s !! k = Some x → x < length (botMem s)).
  { intros k x Hk. destruct Hwf. rewrite Forall_forall in wf_bots0.
    apply wf_bots0. by eapply list_elem_of_lookup_2. }
  split; [exact H4|]. split; [exact H5|]. split.
  - intros i j b b' Hij Hi Hj. split; [by apply (H6 i j) | by eapply Hvalid].
  - intros Hbound i j b b' Hij Hi Hj.
    assert (Hb := Hvalid i b Hi). assert (Hb' := Hvalid j b' Hj).
    assert (Hlt := H6 i j b b' Hij Hi Hj).
    rewrite (H5 b Hb), (H5 b' Hb').
    rewrite !wrap64_id by (unfold int64; lia). lia.
Qed.

Lemma bot_ids_count_up_witness :
  ∃ s, run [EAddBot 0; EAddBot 1; ERemoveBot 2; EAddBot 3]
         NewOrderController = Some s
       ∧ nextBotID s = wrap64 (1 + Z.of_nat (length (botMem s))).
Proof.
  eexists. split; [vm_compute; reflexivity|].
  refine (proj1 (bot_ids_count_up
    [EAddBot 0; EAddBot 1; ERemoveBot 2; EAddBot 3] _ _)).
  vm_compute; reflexivity.
Defined.

(** ** Creating a Normal order, adding a bot *)




Lemma queued_new_books ty now s :
  orders (queued_new ty now s) = orders s ++ [length (orderMem s)]
  ∧ nextOrderID (queued_new ty now s) = wrap64 (nextOrderID s + 1)
  ∧ logger (queued_new ty now s)
    = logger s ++ [MsgCreated ty (wrap64 (atomic_AddInt64 (nextOrderID s) 1 - 1))]
  ∧ orderMem (queued_new ty now s)
    = orderMem s ++ [Order.mk (wrap64 (atomic_AddInt64 (nextOrderID s) 1 - 1))
                       ty OrderStatusPending 0%Z now 0%Z 0%Z].
Proof.
  unfold queued_new.
  destruct (insertOrderToPending_frame (length (orderMem s))
              (alloc_order ty now s)) as (Hl & Hor & _ & _ & Hno & _ & Hom & _).
  change (orders (Log ?m ?x)) with (orders x).
  change (nextOrderID (Log ?m ?x)) with (nextOrderID x).
  change (orderMem (Log ?m ?x)) with (orderMem x).
  change (logger (Log ?m ?x)) with (logger x ++ [m]).
  rewrite Hl, Hor, Hno, Hom. done.
Qed.




Lemma bot_at_pooled_other s b :
  b ≠ length (botMem s) → bot_at (pooled_new s) b = bot_at s b.
Proof.
  intros Hne. destruct (decide (b < length (botMem s))) as [Hlt | Hge].
  - by apply bot_at_pooled.
  - rewrite (bot_at_oob s) by lia. apply bot_at_oob.
    unfold pooled_new; simpl. rewrite length_app. simpl. lia.
Qed.





(** ** The stop channel never blocks *)

Lemma chan_ok_same s s' :
  (∀ b, Bot.stopChan (bot_at s' b) = Bot.stopChan (bot_at s b)) →
  chan_ok s → chan_ok s'.
Proof. intros H Hok b. rewrite H. apply Hok. Qed.

Lemma chan_ok_pass now s : chan_ok s → chan_ok (assignOrdersToBots now s).
Proof.
  apply chan_ok_same. intros b.
  by destruct (assign_loop_passes now (bots s) s).
Qed.

Lemma chan_ok_finalize now bot order s :
  chan_ok s → chan_ok (finalizeOrderCompletion now bot order s).
Proof.
  intros Hok. rewrite finalizeOrderCompletion_reported. simpl.
  assert (H : chan_ok (assignOrdersToBots now (reported bot order s)))
    by (by apply chan_ok_pass).
  by destruct (bool_decide _).
Qed.

Lemma step_chan_ok e s s' : wf s → chan_ok s → step e s = Some s' → chan_ok s'.
Proof.
  intros Hwf Hok Hstep. destruct (step_shape e s s' Hwf Hstep).
  - apply chan_ok_pass. eapply chan_ok_same; [|exact Hok]. intros b.
    destruct (queued_new_frame OrderTypeNormal now s) as (_ & Hbm & _).
    unfold bot_at. by rewrite Hbm.
  - apply chan_ok_pass. eapply chan_ok_same; [|exact Hok]. intros b.
    destruct (queued_new_frame OrderTypeVIP now s) as (_ & Hbm & _).
    unfold bot_at. by rewrite Hbm.
  - apply chan_ok_pass. intros b.
    destruct (decide (b = length (botMem s))) as [-> | Hne].
    + rewrite bot_at_pooled_new. simpl. lia.
    + rewrite bot_at_pooled_other by done. apply Hok.
  - done.
  - by apply chan_ok_pass.
  - apply chan_ok_pass. intros b. unfold requeued.
    destruct (insertOrderToPending_frame order (stopped bot order (set_bots bs s)))
      as (_ & _ & _ & _ & _ & _ & _ & Hbm & _).
    unfold bot_at. change (botMem (Log ?m ?x)) with (botMem x). rewrite Hbm.
    fold (bot_at (stopped bot order (set_bots bs s)) b).
    rewrite bot_at_stopped. case_ptr; [|apply Hok]. simpl.
    change (bot_at (set_bots bs s) bot) with (bot_at s bot).
    rewrite (wf_chan s Hwf bot); [simpl; lia|].
    rewrite H. apply elem_of_app. right. by apply list_elem_of_singleton.
  - by apply chan_ok_pass.
  - intros b. unfold retire, set_routine.
    change (bot_at (set_routines ?x ?y) b) with (bot_at y b).
    rewrite bot_at_store. case_ptr; [|apply Hok]. simpl.
    assert (Hle := Hok (Routine.bot r)). rewrite H1 in Hle. simpl in Hle. lia.
  - done.
  - done.
  - apply chan_ok_finalize. intros b. rewrite bot_at_completed.
    case_ptr; simpl; apply Hok.
Qed.

Lemma run_chan_ok tr s s' : inv s → chan_ok s → run tr s = Some s' → chan_ok s'.
Proof.
  revert s. induction tr as [|e tr IH]; intros s Hinv Hok Hrun;
    simpl in Hrun.
  - by injection Hrun as <-.
  - destruct (step e s) as [s1|] eqn:Hstep; [|done]. simpl in Hrun.
    apply (IH s1); [by destruct (step_inv e s s1 Hinv Hstep) | | done].
    eapply step_chan_ok; [by destruct Hinv | done | done].
Qed.

(** X5.  In every state of a run a call of [RemoveBot] returns: the send
    [bot.stopChan <- true] finds the one-slot channel empty, because the
    bots of the pool have nothing buffered and a bot gets at most one stop
    signal in its life.  So every method the driver can call goes through,
    and no stop channel ever holds more than one value. *)
Theorem RemoveBot_never_blocks (tr : list event) (s : State) (now : Time) :
  run tr NewOrderController = Some s →
  is_Some (RemoveBot now s)
  ∧ (∀ b, b ∈ bots s → Bot.stopChan (bot_at s b) = [])
  ∧ (∀ b, length (Bot.stopChan (bot_at s b)) ≤ 1)
  ∧ (∀ e, (∀ g c t, e ≠ ESelect g c t) → is_Some (step e s)).
Proof.
  intros Hrun. destruct (run_init_inv tr s Hrun) as [Hwf Hsat].
  assert (Hrem : ∀ t, is_Some (RemoveBot t s)).
  { intros t. destruct (RemoveBot_cases t s Hwf)
      as [[_ Heq] | [(bs & bot & _ & _ & _ & Heq)
                    | (bs & bot & order & _ & _ & _ & Heq)]];
      rewrite Heq; eauto. }
  split; [apply Hrem|]. split; [apply (wf_chan s Hwf)|]. split.
  - apply (run_chan_ok tr NewOrderController s inv_init); [|done].
    intros b. unfold bot_at. simpl. lia.
  - intros [t|t|t|t|t|g c t] He; simpl; eauto. by destruct (He g c t).
Qed.

Lemma RemoveBot_never_blocks_witness :
  ∃ s, run [ECreateNormalOrder 0; EAddBot 1; EAddBot 2; ERemoveBot 3]
         NewOrderController = Some s
       ∧ is_Some (RemoveBot 4 s).
Proof.
  eexists. split; [vm_compute; reflexivity|].
  refine (proj1 (RemoveBot_never_blocks
    [ECreateNormalOrder 0; EAddBot 1; EAddBot 2; ERemoveBot 3] _ 4%Z _)).
  vm_compute; reflexivity.
Defined.

(** ** Removing an idle bot, waiting *)






(** ** Bots and the orders they hold *)

(** X8.  In every state of a run a bot is Idle exactly when its [Order] field is
    nil, so the two tests of [isProcessing] in [stopBotProcessing] agree;
    the order a bot holds exists; and the orders of the queue together with
    the orders held by the bots of the pool are pairwise distinct: no order
    is queued twice, held by two bots of the pool, or queued while a bot of
    the pool holds it. *)
Theorem bots_hold_distinct_orders (tr : list event) (s : State) :
  run tr NewOrderController = Some s →
  (∀ b, Bot.Status (bot_at s b) = BotStatusIdle
        ↔ Bot.Order (bot_at s b) = None)
  ∧ (∀ b order, Bot.Order (bot_at s b) = Some order →
       order < length (orderMem s))
  ∧ NoDup (bots s)
  ∧ NoDup (pendingOrders s
           ++ omap (λ b, Bot.Order (bot_at s b)) (bots s)).
Proof.
  intros Hrun. destruct (run_init_inv tr s Hrun) as [Hwf _].
  split; [apply (wf_idle s Hwf)|]. split; [apply (wf_slot s Hwf)|].
  split; [apply (wf_pool s Hwf) | apply (wf_owned s Hwf)].
Qed.

Lemma bots_hold_distinct_orders_witness :
  ∃ s, run [ECreateNormalOrder 0; EAddBot 1; ECreateVIPOrder 2; ERemoveBot 3]
         NewOrderController = Some s
       ∧ NoDup (bots s).
Proof.
  eexists. split; [vm_compute; reflexivity|].
  refine (proj1 (proj2 (proj2 (bots_hold_distinct_orders
    [ECreateNormalOrder 0; EAddBot 1; ECreateVIPOrder 2; ERemoveBot 3] _ _)))).
  vm_compute; reflexivity.
Defined.

(** ** The two revisions of order.go *)

Lemma Inlined_RemoveBot_eq now s : Inlined.RemoveBot now s = RemoveBot now s.
Proof.
  unfold Inlined.RemoveBot, RemoveBot, removeBotFromList.
  case_decide as Hlen; [done|].
  destruct (bots s !! (length (bots s) - 1)) as [bot|]; [|done].
  set (s1 := set_bots (take (length (bots s) - 1) (bots s)) s).
  unfold stopBotProcessing.
  destruct (Bot.Status (bot_at s1 bot)); [done|].
  destruct (Bot.Order (bot_at s1 bot)) as [order|]; [|done].
  destruct (chan_send 1 true (Bot.stopChan (bot_at s1 bot))) as [ch|]; [|done].
  simpl. unfold handleProcessingBotRemoval, insertOrderToPending.
  rewrite splice_insertVIPOrder.
  set (s2 := store_order order _ _).
  by destruct (Order.Type_ (order_at s2 order)).
Qed.

(** X9.  In every state of a run the revision of order.go with the inlined
    bodies and the revision with the helper functions compute the same
    state for [CreateNormalOrder], [AddBot] and [RemoveBot]: reading the
    counter under the lock and bumping it, or bumping it atomically and
    subtracting one, gives the same id, and the inlined splice of
    [RemoveBot] is [insertOrderToPending]. *)
Theorem revisions_agree (tr : list event) (s : State) (now : Time) :
  run tr NewOrderController = Some s →
  Inlined.CreateNormalOrder now s = CreateNormalOrder now s
  ∧ Inlined.AddBot now s = AddBot now s
  ∧ Inlined.RemoveBot now s = RemoveBot now s.
Proof.
  intros Hrun. destruct (run_init_inv tr s Hrun) as [Hwf _].
  split; [apply Inlined_CreateNormalOrder_eq, (wf_orderID s Hwf)|].
  split; [apply Inlined_AddBot_eq, (wf_botID s Hwf)|].
  apply Inlined_RemoveBot_eq.
Qed.

Lemma revisions_agree_witness :
  ∃ s, run [ECreateVIPOrder 0; EAddBot 1; ECreateNormalOrder 2]
         NewOrderController = Some s
       ∧ Inlined.RemoveBot 3 s = RemoveBot 3 s.
Proof.
  eexists. split; [vm_compute; reflexivity|].
  refine (proj2 (proj2 (revisions_agree
    [ECreateVIPOrder 0; EAddBot 1; ECreateNormalOrder 2] _ 3%Z _))).
  vm_compute; reflexivity.
Defined.

(** ** Goroutines *)


















(** ** The final report *)

Lemma count_order_fold s l v n :
  fold_left (count_order s) l (v, n)
  = (v + length (class_view OrderTypeVIP s l),
     n + length (class_view OrderTypeNormal s l)).
Proof.
  revert v n. induction l as [|x l IH]; intros v n; simpl.
  - f_equal; lia.
  - unfold class_view in *.
    destruct (Order.Type_ (order_at s x)) eqn:Hty.
    + rewrite (filter_cons_False (is_class OrderTypeVIP s))
        by (unfold is_class, order_type; congruence).
      rewrite (filter_cons_True (is_class OrderTypeNormal s))
        by (unfold is_class, order_type; congruence).
      unfold count_order at 2. rewrite Hty. simpl. rewrite IH.
      f_equal; lia.
    + rewrite (filter_cons_True (is_class OrderTypeVIP s))
        by (unfold is_class, order_type; congruence).
      rewrite (filter_cons_False (is_class OrderTypeNormal s))
        by (unfold is_class, order_type; congruence).
      unfold count_order at 2. rewrite Hty. simpl. rewrite IH.
      f_equal; lia.
Qed.

Lemma class_views_length s l :
  length (class_view OrderTypeVIP s l) + length (class_view OrderTypeNormal s l)
  = length l.
Proof.
  unfold class_view. induction l as [|x l IH]; [done|].
  destruct (order_type s x) eqn:Hty.
  - rewrite (filter_cons_False (is_class OrderTypeVIP s))
      by (unfold is_class; congruence).
    rewrite (filter_cons_True (is_class OrderTypeNormal s))
      by (unfold is_class; congruence). simpl. lia.
  - rewrite (filter_cons_True (is_class OrderTypeVIP s))
      by (unfold is_class; congruence).
    rewrite (filter_cons_False (is_class OrderTypeNormal s))
      by (unfold is_class; congruence). simpl. lia.
Qed.

(** X12.  The report of [PrintStatus] is consistent: the VIP count and the Normal
    count it prints are the numbers of completed entries of each class and
    add up to the total it prints, the other three numbers are the lengths
    of the completed list, the pool and the queue, and the revision that
    counts with an [if]/[else] prints the same six lines. *)
Theorem PrintStatus_counts (s : State) :
  ∃ vipCount normalCount,
    PrintStatus s
    = [LineBlank; LineFinalStatus;
       LineTotal (length (completedOrders s)) vipCount normalCount;
       LineCompleted (length (completedOrders s));
       LineActiveBots (length (bots s));
       LinePending (length (pendingOrders s))]
    ∧ vipCount = length (class_view OrderTypeVIP s (completedOrders s))
    ∧ normalCount = length (class_view OrderTypeNormal s (completedOrders s))
    ∧ vipCount + normalCount = length (completedOrders s)
    ∧ PrintStatus_inlined s = PrintStatus s.
Proof.
  exists (length (class_view OrderTypeVIP s (completedOrders s))),
    (length (class_view OrderTypeNormal s (completedOrders s))).
  unfold PrintStatus. rewrite count_order_fold. simpl.
  split; [done|]. split; [done|]. split; [done|].
  split; [apply class_views_length|].
  unfold PrintStatus_inlined, PrintStatus.
  assert (Heq : ∀ l c, fold_left (count_order_inlined s) l c
                       = fold_left (count_order s) l c).
  { induction l as [|x l IH]; intros c; [done|]. simpl. rewrite IH.
    f_equal. unfold count_order_inlined, count_order.
    by destruct (Order.Type_ (order_at s x)). }
  by rewrite Heq, count_order_fold.
Qed.

(** ** Insertion keeps the queue *)

(** X13.  Whatever the state, [insertOrderToPending] puts the order into the queue
    once, at some index, and leaves the entries that were there in the
    order they had: nothing is dropped, doubled or swapped, also when the
    queue is not sorted by class.  Only the queue changes.  The splice of
    the inlined revision builds the same queue as [insertVIPOrder]. *)
Theorem insertOrderToPending_keeps_entries (s : State) (order : ptr) :
  (∃ i, i ≤ length (pendingOrders s)
        ∧ pendingOrders (insertOrderToPending order s)
          = take i (pendingOrders s) ++ order :: drop i (pendingOrders s))
  ∧ pendingOrders (insertOrderToPending order s) ≡ₚ order :: pendingOrders s
  ∧ insertOrderToPending order s
    = set_pendingOrders (pendingOrders (insertOrderToPending order s)) s
  ∧ Inlined.splice order s = insertVIPOrder order s.
Proof.
  assert (H : ∃ i, i ≤ length (pendingOrders s)
        ∧ pendingOrders (insertOrderToPending order s)
          = take i (pendingOrders s) ++ order :: drop i (pendingOrders s)).
  { unfold insertOrderToPending.
    destruct (Order.Type_ (order_at s order)).
    - exists (length (pendingOrders s)). split; [done|]. simpl.
      by rewrite take_ge, drop_ge.
    - exists (findInsertIndex s (pendingOrders s) 0 0). split.
      + apply (findInsertIndex_le s (pendingOrders s) 0 0). lia.
      + apply pendingOrders_insertVIPOrder. }
  split; [exact H|]. split.
  - destruct H as (i & _ & ->).
    rewrite <- Permutation_middle. by rewrite take_drop.
  - split; [|apply splice_insertVIPOrder].
    unfold insertOrderToPending, insertVIPOrder.
    by destruct (Order.Type_ (order_at s order)).
Qed.

(** ** What is never undone *)

Lemma grows_refl s : grows s s.
Proof. by constructor. Qed.

Lemma grows_trans s1 s2 s3 : grows s1 s2 → grows s2 s3 → grows s1 s3.
Proof. intros [] []. constructor; by etrans. Qed.

Lemma grows_Log m s : grows s (Log m s).
Proof. constructor; try done. by apply prefix_app_r. Qed.

Lemma grows_pass now s : grows s (assignOrdersToBots now s).
Proof.
  unfold assignOrdersToBots. generalize (bots s). intros bs. revert s.
  induction bs as [|b bs IH]; intros s; [apply grows_refl|].
  simpl. eapply grows_trans; [|apply IH].
  destruct (assign_bot_cases now s b)
    as [[-> _] | (order & rest & _ & _ & ->)]; [apply grows_refl|].
  constructor; try done; unfold picked; simpl.
  - by apply prefix_app_r.
  - rewrite length_app. lia.
Qed.

Lemma grows_queued_new ty now s : grows s (queued_new ty now s).
Proof.
  destruct (queued_new_books ty now s) as (Hor & _ & Hlog & _).
  destruct (queued_new_frame ty now s) as (_ & _ & Hc & Hr & _).
  constructor.
  - rewrite Hlog. by apply prefix_app_r.
  - rewrite Hor. by apply prefix_app_r.
  - by rewrite Hc.
  - by rewrite Hr.
Qed.

Lemma grows_requeued bs bot order s :
  grows s (requeued bot order (stopped bot order (set_bots bs s))).
Proof.
  unfold requeued.
  destruct (insertOrderToPending_frame order (stopped bot order (set_bots bs s)))
    as (Hl & Ho & Hc & _ & _ & _ & _ & _ & Hr).
  eapply grows_trans; [|apply grows_Log].
  constructor; rewrite ?Hl, ?Ho, ?Hc, ?Hr; done.
Qed.

Lemma grows_finalize now bot order s :
  grows s (finalizeOrderCompletion now bot order s).
Proof.
  rewrite finalizeOrderCompletion_reported. simpl.
  assert (H : grows s (assignOrdersToBots now (reported bot order s))).
  { eapply grows_trans; [|apply grows_pass].
    constructor; try done; unfold reported; simpl; by apply prefix_app_r. }
  destruct (bool_decide _); [done|].
  eapply grows_trans; [exact H | apply grows_Log].
Qed.

Lemma step_grows e s s' : wf s → step e s = Some s' → grows s s'.
Proof.
  intros Hwf Hstep. destruct (step_shape e s s' Hwf Hstep).
  - eapply grows_trans; [apply grows_queued_new | apply grows_pass].
  - eapply grows_trans; [apply grows_queued_new | apply grows_pass].
  - eapply grows_trans; [|apply grows_pass].
    constructor; try done. unfold pooled_new, Log; simpl.
    by apply prefix_app_r.
  - apply grows_refl.
  - eapply grows_trans; [|apply grows_pass].
    constructor; try done. simpl. by apply prefix_app_r.
  - eapply grows_trans; [apply grows_requeued | apply grows_pass].
  - apply grows_pass.
  - constructor; try done. unfold retire, set_routine; simpl.
    by rewrite length_insert.
  - apply grows_refl.
  - constructor; try done. unfold retire, set_routine; simpl.
    by rewrite length_insert.
  - eapply grows_trans; [|apply grows_finalize].
    constructor; try done. unfold completed, retire, set_routine; simpl.
    by rewrite length_insert.
Qed.

Lemma run_grows tr s s' : inv s → run tr s = Some s' → grows s s'.
Proof.
  revert s. induction tr as [|e tr IH]; intros s Hinv Hrun; simpl in Hrun.
  - injection Hrun as <-. apply grows_refl.
  - destruct (step e s) as [s1|] eqn:Hstep; [|done]. simpl in Hrun.
    eapply grows_trans; [eapply step_grows; [by destruct Hinv | done]|].
    apply IH; [by destruct (step_inv e s s1 Hinv Hstep) | done].
Qed.

(** X14.  Between any two points of a run nothing recorded is taken back: the
    log, [oc.orders] and the list of completed orders of the earlier state
    open those of the later state, entry for entry, and every order and bot
    cell is still there. *)
Theorem records_are_append_only (tr tr' : list event) (s s' : State) :
  run tr NewOrderController = Some s → run tr' s = Some s' →
  logger s `prefix_of` logger s'
  ∧ orders s `prefix_of` orders s'
  ∧ completedOrders s `prefix_of` completedOrders s'
  ∧ length (routines s) ≤ length (routines s')
  ∧ length (orderMem s) ≤ length (orderMem s')
  ∧ length (botMem s) ≤ length (botMem s').
Proof.
  intros Hrun Hrun'. assert (Hinv := run_init_inv tr s Hrun).
  destruct (run_grows tr' s s' Hinv Hrun') as [H1 H2 H3 H4].
  destruct (run_inv tr' s s' Hinv Hrun') as [_ [H5 H6 _ _]]. done.
Qed.

Lemma records_are_append_only_witness :
  ∃ s s', run [ECreateNormalOrder 0; EAddBot 1] NewOrderController = Some s
          ∧ run [ESelect 0 CaseTick 10000000001; ECreateVIPOrder 10000000002] s
            = Some s'
          ∧ completedOrders s `prefix_of` completedOrders s'.
Proof.
  eexists _, _. split; [vm_compute; reflexivity|].
  split; [vm_compute; reflexivity|].
  refine (proj1 (proj2 (proj2 (records_are_append_only
    [ECreateNormalOrder 0; EAddBot 1]
    [ESelect 0 CaseTick 10000000001; ECreateVIPOrder 10000000002] _ _ _ _)))).
  - vm_compute; reflexivity.
  - vm_compute; reflexivity.
Defined.

(** X15.  Between any two points of a run the identity of a cell does not change:
    an order keeps its id, its class and its creation time, a bot keeps its
    id.  The methods write only the status, the owner and the start and
    completion times of an order, and the status, the order and the stop
    channel of a bot. *)
Theorem identity_fields_are_write_once (tr tr' : list event) (s s' : State) :
  run tr NewOrderController = Some s → run tr' s = Some s' →
  (∀ p, p < length (orderMem s) →
     Order.ID (order_at s' p) = Order.ID (order_at s p)
     ∧ Order.Type_ (order_at s' p) = Order.Type_ (order_at s p)
     ∧ Order.Created (order_at s' p) = Order.Created (order_at s p))
  ∧ (∀ b, b < length (botMem s) → Bot.ID (bot_at s' b) = Bot.ID (bot_at s b)).
Proof.
  intros Hrun Hrun'. assert (Hinv := run_init_inv tr s Hrun).
  destruct (run_inv tr' s s' Hinv Hrun') as [_ [_ _ H1 H2]]. done.
Qed.

Lemma identity_fields_are_write_once_witness :
  ∃ s s', run [ECreateVIPOrder 0; EAddBot 1] NewOrderController = Some s
          ∧ run [ERemoveBot 2; EAddBot 3] s = Some s'
          ∧ ∀ b, b < length (botMem s) →
                 Bot.ID (bot_at s' b) = Bot.ID (bot_at s b).
Proof.
  eexists _, _. split; [vm_compute; reflexivity|].
  split; [vm_compute; reflexivity|].
  refine (proj2 (identity_fields_are_write_once
    [ECreateVIPOrder 0; EAddBot 1] [ERemoveBot 2; EAddBot 3] _ _ _ _)).
  - vm_compute; reflexivity.
  - vm_compute; reflexivity.
Defined.

(** ** Adding a bot and removing it again *)





